(** * Roundbuilder: the round simulation and scoring engine

  A shallow embedding of [src/types.ts], [src/gameLogic.ts] and of the
  engine part of the two [src/App.tsx] front ends (free choice by id, and
  auto-sequential), followed by the properties of the engine.

  Conventions of the embedding.
  - A TypeScript [number] that carries a physical quantity (seconds,
    degrees, dilution fraction, score) is a real number [R]; [Math.exp],
    [Math.abs], [Math.min] and [Math.max] are [exp], [Rabs], [Rmin] and
    [Rmax].  A [number] that is an array index or a counter is a [nat]
    (or a [Z] where the source uses [-1] as "not found") and is injected
    with [INR] where the source mixes it with a quantity.  Rounding,
    infinities and NaN of IEEE doubles are outside this model; where the
    rounding of a sum decides a statement, module [Binary64] has the
    computation on binary64 numbers, and the properties below are stated
    through the operations the code performs, with weak inequalities.
  - An optional field ([x?: T], possibly [null]) is an [option]; the
    source only ever reads such a field through [??], which does not
    tell [undefined] from [null].
  - [React.useState] cells are the fields of a record; an event handler
    reads the cells of the render it was created in and emits a list of
    setter calls, applied in order afterwards. *)

From Stdlib Require Import Reals Lra Lia String ZArith Bool Arith List.
From Stdlib Require Import Permutation Sorted.
From Stdlib Require PrimFloat.
Import ListNotations.

Open Scope R_scope.

(** ** [types.ts] *)

Module Types.

Inductive Category : Type :=
| STRAIGHT_UP
| ON_THE_ROCKS
| NON_CHILLED.

Inductive IceSurface : Type :=
| large
| standard
| crushed.

Record Drink : Type := mkDrink {
  id : string;
  name : string;
  category : Category;
  baseFinishSec : R;
  startTempC : R;
  idealDilution : option R;
  iceSurface : option IceSurface
}.

Record Penalty : Type := mkPenalty {
  label : string;
  value : R
}.

Record FinishedDrink : Type := mkFinished {
  drink : Drink;
  finishedAt : R;
  waitSec : R;
  tempC : R;
  dilution : option R;
  penalties : list Penalty
}.

Definition Category_eqb (a b : Category) : bool :=
  match a, b with
  | STRAIGHT_UP, STRAIGHT_UP => true
  | ON_THE_ROCKS, ON_THE_ROCKS => true
  | NON_CHILLED, NON_CHILLED => true
  | _, _ => false
  end.

End Types.

Export Types.

(** ** JavaScript built-ins used by the engine *)

Module JS.

(** [a ?? b] on an optional value. *)
Definition nullish {A : Type} (o : option A) (d : A) : A :=
  match o with
  | Some a => a
  | None => d
  end.

(** [Map<Category, number>]: [set] overwrites, [get] of a missing key is
    [undefined]. *)
Definition CatMap : Type := Category -> option nat.

Definition map_empty : CatMap := fun _ => None.

Definition map_set (m : CatMap) (k : Category) (v : nat) : CatMap :=
  fun c => if Category_eqb c k then Some v else m c.

Definition map_get (m : CatMap) (k : Category) : option nat := m k.

(** [xs.forEach((c, i) => m.set(c, i))], the index starting at [i];
    [new Map(xs.map((c, i) => [c, i]))] inserts in the same order. *)
Fixpoint map_of_indexed (m : CatMap) (i : nat) (xs : list Category) : CatMap :=
  match xs with
  | [] => m
  | c :: rest => map_of_indexed (map_set m c i) (S i) rest
  end.

(** [xs.findIndex(p)]: the first index whose element satisfies [p],
    [-1] when there is none. *)
Fixpoint findIndex_from {A : Type} (p : A -> bool) (i : Z) (xs : list A) : Z :=
  match xs with
  | [] => (-1)%Z
  | x :: rest => if p x then i else findIndex_from p (i + 1)%Z rest
  end.

Definition findIndex {A : Type} (p : A -> bool) (xs : list A) : Z :=
  findIndex_from p 0%Z xs.

(** [xs.slice(a, b)] and [xs.slice(a)] for in-range, nonnegative bounds. *)
Definition slice {A : Type} (a b : nat) (xs : list A) : list A :=
  firstn (b - a) (skipn a xs).

Definition slice_from {A : Type} (a : nat) (xs : list A) : list A :=
  skipn a xs.

(** [Array.prototype.sort(cmp)] is specified to be stable; for a
    comparator that is a consistent total preorder every stable sort
    returns the same array.  It is modelled by stable insertion: an
    element is placed before the first element it does not compare
    greater than. *)
Section Sort.
Context {A : Type} (cmp : A -> A -> R).

Fixpoint sort_insert (x : A) (l : list A) : list A :=
  match l with
  | [] => [x]
  | y :: rest =>
      if Rle_dec (cmp x y) 0 then x :: y :: rest
      else y :: sort_insert x rest
  end.

Fixpoint sort (l : list A) : list A :=
  match l with
  | [] => []
  | x :: rest => sort_insert x (sort rest)
  end.
End Sort.

(** [xs.includes(c)] on an array of categories. *)
Definition includes (c : Category) (xs : list Category) : bool :=
  existsb (Category_eqb c) xs.

(** [Math.max(...xs)] and [Math.min(...xs)] of a non-empty array, given
    as head and tail. *)
Definition max_of (x : R) (xs : list R) : R := fold_left Rmax xs x.
Definition min_of (x : R) (xs : list R) : R := fold_left Rmin xs x.

End JS.

(** ** [gameLogic.ts] *)

Module GameLogic.

Import JS.

(** [tempAt(waitSec, T0, ambient = 22, tauSec = 120)]; every call site
    passes the four arguments. *)
Definition tempAt (waitSec T0 ambient tauSec : R) : R :=
  let t := Rmax 0 waitSec in
  ambient + (T0 - ambient) * exp (- t / tauSec).

(** [dilutionAt(waitSec, surface)]; [None] is the [null] the parameter
    type admits, which falls through to the standard rate. *)
Definition dilutionAt (waitSec : R) (surface : option IceSurface) : R :=
  let rate :=
    match surface with
    | Some large => 0.004
    | Some crushed => 0.008
    | _ => 0.0055
    end in
  Rmin 0.6 (Rmax 0 (waitSec * rate)).

Definition recommendedOrder : list Category :=
  [NON_CHILLED; ON_THE_ROCKS; STRAIGHT_UP].

Definition generateOrders : list Drink :=
  [ mkDrink "1" "Martini" STRAIGHT_UP 12 (-4) None None;
    mkDrink "2" "Manhattan" STRAIGHT_UP 12 (-3) None None;
    mkDrink "3" "Old Fashioned" ON_THE_ROCKS 10 0 (Some 0.33) (Some large);
    mkDrink "4" "Whiskey Highball" ON_THE_ROCKS 8 0 (Some 0.33) (Some standard);
    mkDrink "5" "Gin & Tonic" ON_THE_ROCKS 8 0 (Some 0.33) (Some crushed);
    mkDrink "6" "Beer" NON_CHILLED 5 6 None None;
    mkDrink "7" "White Wine" NON_CHILLED 5 7 None None ].

Definition label_warm : string := "Тёплый straight-up (>0°C)".
Definition label_dilution : string := "Разбавление не по цели".
Definition label_lost_chill : string := "Потеря холода напитка без льда".
Definition label_window : string := "Длинное окно между первым/последним".
Definition label_order : string := "Порядок категорий не оптимален".

(** [sortByFinishQueue(drinks, queue)]. *)
Definition orderIndex (queue : list Category) : CatMap :=
  map_of_indexed map_empty 0 queue.

Definition priority (queue : list Category) (c : Category) : nat :=
  nullish (map_get (orderIndex queue) c) 99%nat.

(** The comparator handed to [sort]. *)
Definition finishCompare (queue : list Category) (a b : Drink) : R :=
  let ia := priority queue (category a) in
  let ib := priority queue (category b) in
  if negb (ia =? ib)%nat then INR ia - INR ib
  else baseFinishSec a - baseFinishSec b.

Definition sortByFinishQueue (drinks : list Drink) (queue : list Category)
  : list Drink :=
  sort (finishCompare queue) drinks.

(** [simulateFinish(drinksInOrder)]: the three loop variables, the loop
    body, and the function. *)
Record SimLoop : Type := mkSimLoop {
  sim_clock : R;
  sim_finishTimes : list R;
  sim_finished : list FinishedDrink
}.

Definition simulateFinish_body (st : SimLoop) (d : Drink) : SimLoop :=
  let wait := sim_clock st in
  let clock := sim_clock st + baseFinishSec d in
  let '(temp, penalties) :=
    if Category_eqb (category d) STRAIGHT_UP then
      let temp := tempAt wait (startTempC d) 22 120 in
      (temp,
       if Rlt_dec 0 temp
       then [mkPenalty label_warm (temp / 10 * 12)]
       else [])
    else if Category_eqb (category d) ON_THE_ROCKS then
      let dil := dilutionAt wait (Some (nullish (iceSurface d) standard)) in
      let ideal := nullish (idealDilution d) 0.33 in
      let delta := Rabs (dil - ideal) in
      (startTempC d, [mkPenalty label_dilution (delta * 80)])
    else
      let temp := tempAt wait (startTempC d) 22 240 in
      (temp,
       if Rlt_dec 12 temp
       then [mkPenalty label_lost_chill ((temp - 10) * 2)]
       else []) in
  let dilution :=
    if Category_eqb (category d) ON_THE_ROCKS
    then Some (dilutionAt wait (Some (nullish (iceSurface d) standard)))
    else None in
  mkSimLoop clock
    (sim_finishTimes st ++ [clock])
    (sim_finished st ++ [mkFinished d clock wait temp dilution penalties]).

Record SimResult : Type := mkSimResult {
  finished : list FinishedDrink;
  totalSec : R;
  windowSec : R
}.

Definition simulateFinish (drinksInOrder : list Drink) : SimResult :=
  let st := fold_left simulateFinish_body drinksInOrder (mkSimLoop 0 [] []) in
  let totalSec := sim_clock st in
  let windowSec :=
    match sim_finishTimes st with
    | [] => 0
    | t :: ts => max_of t ts - min_of t ts
    end in
  mkSimResult (sim_finished st) totalSec windowSec.

(** [orderPenalty(reco, chosen)]: the two index loops over [chosen]. *)
Definition posOf (reco : list Category) : CatMap :=
  map_of_indexed map_empty 0 reco.

Definition posAt (pos : CatMap) (chosen : list Category) (i : nat) : nat :=
  nullish
    (match nth_error chosen i with
     | Some c => map_get pos c
     | None => None
     end) 0%nat.

Definition orderPenalty_inner (pos : CatMap) (chosen : list Category)
    (i : nat) (inversions : nat) : nat :=
  fold_left
    (fun inv j =>
       let a := posAt pos chosen i in
       let b := posAt pos chosen j in
       if (b <? a)%nat then S inv else inv)
    (seq (i + 1) (length chosen - (i + 1)))
    inversions.

Definition inversionsOf (reco chosen : list Category) : nat :=
  let pos := posOf reco in
  fold_left
    (fun inv i => orderPenalty_inner pos chosen i inv)
    (seq 0 (length chosen))
    0%nat.

Definition orderPenalty (reco chosen : list Category) : nat :=
  (inversionsOf reco chosen * 6)%nat.

(** [scoreRound(finished, windowSec, chosenOrder)].  [rawScore] is the
    value of [score] when the loops are over, before the final clamp. *)
Record Score : Type := mkScore {
  score : R;
  breakdown : list Penalty
}.

Definition windowStep (windowSec : R) (acc : R * list Penalty)
  : R * list Penalty :=
  if Rlt_dec 60 windowSec then
    let p := (windowSec - 60) * 0.2 in
    (fst acc - p, snd acc ++ [mkPenalty label_window p])
  else acc.

Definition orderStep (chosenOrder : list Category) (acc : R * list Penalty)
  : R * list Penalty :=
  let badOrder := orderPenalty recommendedOrder chosenOrder in
  if (0 <? badOrder)%nat then
    (fst acc - INR badOrder,
     snd acc ++ [mkPenalty label_order (INR badOrder)])
  else acc.

Definition drinkStep (sc : R) (f : FinishedDrink) : R :=
  fold_left (fun s p => s - value p) (penalties f) sc.

Definition scoreLoop (finished : list FinishedDrink)
    (windowSec : R) (chosenOrder : list Category) : R * list Penalty :=
  let acc := orderStep chosenOrder (windowStep windowSec (100, [])) in
  (fold_left drinkStep finished (fst acc), snd acc).

Definition rawScore (finished : list FinishedDrink)
    (windowSec : R) (chosenOrder : list Category) : R :=
  fst (scoreLoop finished windowSec chosenOrder).

Definition scoreRound (finished : list FinishedDrink)
    (windowSec : R) (chosenOrder : list Category) : Score :=
  let acc := scoreLoop finished windowSec chosenOrder in
  mkScore (Rmax 0 (Rmin 100 (fst acc))) (snd acc).

End GameLogic.

(** ** [tempAt] on binary64 numbers *)

Module Binary64.

Import PrimFloat.
Local Open Scope float_scope.

(** [Math.max(a, b)]: NaN if either is NaN, and [+0] above [-0]. *)
Definition Math_max (a b : float) : float :=
  if is_nan a then a
  else if is_nan b then b
  else if a <? b then b
  else if b <? a then a
  else if a =? 0 then a + b
  else a.

(** [tempAt] with every operation rounded to binary64.  [Math.exp] is
    implementation-approximated and is a parameter; ECMAScript fixes
    [Math.exp(-0)] to [1]. *)
Definition tempAt64 (exp64 : float -> float)
    (waitSec T0 ambient tauSec : float) : float :=
  let t := Math_max 0 waitSec in
  ambient + (T0 - ambient) * exp64 (- t / tauSec).

(** The binary64 numbers nearest to 0.1 and to 0.10000000000000142. *)
Definition tenth : float := 0x1.999999999999ap-4.
Definition tenth_drifted : float := 0x1.9999999999a00p-4.

End Binary64.

(** ** [App.tsx], the free-choice front end *)

Module App.

Import JS GameLogic.

Inductive Phase : Type :=
| SETUP
| RUNNING
| RESULTS.

Record RoundResult : Type := mkResult {
  res_score : R;
  res_windowSec : R;
  res_totalSec : R;
  res_breakdown : list Penalty
}.

(** The [useState] cells of the component. *)
Record State : Type := mkState {
  phase : Phase;
  orders : list Drink;
  queue : list Category;
  clock : R;
  remaining : list Drink;
  timeline : list FinishedDrink;
  result : option RoundResult
}.

(** A call of one of the setters. *)
Inductive Setter : Type :=
| setPhase (p : Phase)
| setOrders (o : list Drink)
| setQueue (q : list Category)
| setClock (c : R)
| setRemaining (r : list Drink)
| setTimeline (t : list FinishedDrink)
| setResult (r : option RoundResult).

Definition apply_setter (s : State) (u : Setter) : State :=
  match u with
  | setPhase p =>
      mkState p (orders s) (queue s) (clock s) (remaining s) (timeline s) (result s)
  | setOrders o =>
      mkState (phase s) o (queue s) (clock s) (remaining s) (timeline s) (result s)
  | setQueue q =>
      mkState (phase s) (orders s) q (clock s) (remaining s) (timeline s) (result s)
  | setClock c =>
      mkState (phase s) (orders s) (queue s) c (remaining s) (timeline s) (result s)
  | setRemaining r =>
      mkState (phase s) (orders s) (queue s) (clock s) r (timeline s) (result s)
  | setTimeline t =>
      mkState (phase s) (orders s) (queue s) (clock s) (remaining s) t (result s)
  | setResult r =>
      mkState (phase s) (orders s) (queue s) (clock s) (remaining s) (timeline s) r
  end.

Definition commit (s : State) (us : list Setter) : State :=
  fold_left apply_setter us s.

Definition initial : State :=
  mkState SETUP generateOrders [] 0 [] [] None.

Definition sortedPreview (s : State) : list Drink :=
  sortByFinishQueue (orders s) (queue s).

Definition startRound (s : State) : list Setter :=
  [setPhase RUNNING; setClock 0; setTimeline []; setRemaining (sortedPreview s)].

(** [evaluateDrink(d, wait)]. *)
Record Evaluated : Type := mkEvaluated {
  ev_drink : Drink;
  ev_tempC : R;
  ev_dilution : option R;
  ev_penalties : list Penalty
}.

Definition evaluateDrink (d : Drink) (wait : R) : Evaluated :=
  if Category_eqb (category d) STRAIGHT_UP then
    let temp := tempAt wait (startTempC d) 22 120 in
    mkEvaluated d temp None
      (if Rlt_dec 0 temp
       then [mkPenalty label_warm (temp / 10 * 12)]
       else [])
  else if Category_eqb (category d) ON_THE_ROCKS then
    let dilution := dilutionAt wait (Some (nullish (iceSurface d) standard)) in
    let ideal := nullish (idealDilution d) 0.33 in
    let delta := Rabs (dilution - ideal) in
    mkEvaluated d (startTempC d) (Some dilution)
      [mkPenalty label_dilution (delta * 80)]
  else
    let temp := tempAt wait (startTempC d) 22 240 in
    mkEvaluated d temp None
      (if Rlt_dec 12 temp
       then [mkPenalty label_lost_chill ((temp - 10) * 2)]
       else []).

(** [{...evald, waitSec: wait, finishedAt}]. *)
Definition finish_record (e : Evaluated) (wait finishedAt : R) : FinishedDrink :=
  mkFinished (ev_drink e) finishedAt wait (ev_tempC e) (ev_dilution e)
    (ev_penalties e).

(** [nextTimeline[nextTimeline.length - 1].finishedAt - nextTimeline[0].finishedAt]
    when the timeline has more than one entry, [0] otherwise. *)
Definition windowOf (tl : list FinishedDrink) : R :=
  if (1 <? length tl)%nat then
    match nth_error tl (length tl - 1), nth_error tl 0 with
    | Some l, Some f => finishedAt l - finishedAt f
    | _, _ => 0
    end
  else 0.

(** [finishById(id)]: the setter calls it makes; none when the id is
    not found.  [remaining[idx]] is in range whenever [idx >= 0], so the
    [None] branch of the lookup is never taken. *)
Definition finishById (s : State) (i : string) : list Setter :=
  let idx := findIndex (fun d => String.eqb (id d) i) (remaining s) in
  if (idx <? 0)%Z then []
  else
    match nth_error (remaining s) (Z.to_nat idx) with
    | None => []
    | Some d =>
        let wait := clock s in
        let evald := evaluateDrink d wait in
        let finishedAt := clock s + baseFinishSec d in
        let finished := finish_record evald wait finishedAt in
        let nextRemaining :=
          slice 0 (Z.to_nat idx) (remaining s)
          ++ slice_from (Z.to_nat idx + 1) (remaining s) in
        let nextTimeline := timeline s ++ [finished] in
        [setRemaining nextRemaining; setTimeline nextTimeline; setClock finishedAt]
        ++ (if (length nextRemaining =? 0)%nat then
              let totalSec := finishedAt in
              let windowSec := windowOf nextTimeline in
              let sc := scoreRound nextTimeline windowSec (queue s) in
              [setResult (Some (mkResult (score sc) windowSec totalSec (breakdown sc)));
               setPhase RESULTS]
            else [])
    end.

(** One finish action: the handler runs and React commits its calls. *)
Definition finish (s : State) (i : string) : State :=
  commit s (finishById s i).

(** [finishNextAuto()]. *)
Definition finishNextAuto (s : State) : list Setter :=
  match remaining s with
  | [] => []
  | d :: _ => finishById s (id d)
  end.

(** A sequence of finish actions, each on the state the previous left. *)
Definition finish_all (s : State) (ids : list string) : State :=
  fold_left finish ids s.

(** [canStart]. *)
Definition canStart (s : State) : bool := (length (queue s) =? 3)%nat.

(** The updater [toggleCategory(cat)] hands to [setQueue], as a function
    of the queue it is applied to. *)
Definition toggle (prev : list Category) (cat : Category) : list Category :=
  if includes cat prev then filter (fun c => negb (Category_eqb c cat)) prev
  else if (3 <=? length prev)%nat then prev
  else prev ++ [cat].

(** [toggleCategory(cat)]: one [setQueue] call; the handler runs once per
    click, so the updater is applied to the queue of the current render. *)
Definition toggleCategory (s : State) (cat : Category) : list Setter :=
  [setQueue (toggle (queue s) cat)].

(** [resetAll()]. *)
Definition resetAll (s : State) : list Setter :=
  [setPhase SETUP; setQueue []; setClock 0; setRemaining []; setTimeline [];
   setOrders generateOrders; setResult None].

(** A sequence of clicks on category tags, from queue [q]. *)
Definition toggle_all (q : list Category) (cats : list Category) : list Category :=
  fold_left toggle cats q.

(** [n] clicks on "Finish Next". *)
Fixpoint auto_run (n : nat) (s : State) : State :=
  match n with
  | O => s
  | S k => auto_run k (commit s (finishNextAuto s))
  end.

End App.

(** ** [App.tsx], the auto-sequential front end *)

Module AppAuto.

Import JS GameLogic.

(** The [useState] cells of the component: a cursor into the suggested
    order instead of a clock and a list of remaining drinks. *)
Record State : Type := mkState {
  phase : App.Phase;
  orders : list Drink;
  queue : list Category;
  cursor : nat;
  timeline : list FinishedDrink;
  result : option App.RoundResult
}.

Inductive Setter : Type :=
| setPhase (p : App.Phase)
| setOrders (o : list Drink)
| setQueue (q : list Category)
| setCursor (c : nat)
| setTimeline (t : list FinishedDrink)
| setResult (r : option App.RoundResult).

Definition apply_setter (s : State) (u : Setter) : State :=
  match u with
  | setPhase p => mkState p (orders s) (queue s) (cursor s) (timeline s) (result s)
  | setOrders o => mkState (phase s) o (queue s) (cursor s) (timeline s) (result s)
  | setQueue q => mkState (phase s) (orders s) q (cursor s) (timeline s) (result s)
  | setCursor c => mkState (phase s) (orders s) (queue s) c (timeline s) (result s)
  | setTimeline t => mkState (phase s) (orders s) (queue s) (cursor s) t (result s)
  | setResult r => mkState (phase s) (orders s) (queue s) (cursor s) (timeline s) r
  end.

Definition commit (s : State) (us : list Setter) : State :=
  fold_left apply_setter us s.

Definition sortedPreview (s : State) : list Drink :=
  sortByFinishQueue (orders s) (queue s).

Definition startRound (s : State) : list Setter :=
  [setPhase App.RUNNING; setCursor 0%nat; setTimeline []].

(** [finishNext()].  [sim.finished] has one entry per drink of [ordered],
    so [sim.finished[cursor]] is there whenever [cursor < ordered.length];
    the [None] branch stands for the [undefined] of an index out of range
    and is never taken. *)
Definition finishNext (s : State) : list Setter :=
  let ordered := sortedPreview s in
  if (length ordered <=? cursor s)%nat then []
  else
    let sim := simulateFinish ordered in
    match nth_error (finished sim) (cursor s) with
    | None => []
    | Some f =>
        let partial := timeline s ++ [f] in
        [setTimeline partial; setCursor (cursor s + 1)%nat]
        ++ (if (cursor s + 1 =? length ordered)%nat then
              let sc := scoreRound (finished sim) (windowSec sim) (queue s) in
              [setResult
                 (Some (App.mkResult (score sc) (windowSec sim) (totalSec sim)
                          (breakdown sc)));
               setPhase App.RESULTS]
            else [])
    end.

(** [n] clicks on "Finish Next". *)
Fixpoint run (n : nat) (s : State) : State :=
  match n with
  | O => s
  | S k => run k (commit s (finishNext s))
  end.

End AppAuto.

(** ** Vocabulary of the properties *)

Module Spec.

Import JS GameLogic App.

(** Clamping [x] into [[lo, hi]], by cases. *)
Definition clamp (lo hi x : R) : R :=
  if Rlt_dec x lo then lo else if Rlt_dec hi x then hi else x.

(** Dilution rate per second of an ice-surface class. *)
Definition rate_of (s : IceSurface) : R :=
  match s with
  | large => 0.004
  | standard => 0.0055
  | crushed => 0.008
  end.

(** The timeline the auto-sequential walk produces from clock value
    [clock0]: each drink is evaluated at the clock value it starts at and
    finishes its nominal duration later. *)
Fixpoint walk (clock0 : R) (l : list Drink) : list FinishedDrink :=
  match l with
  | [] => []
  | d :: rest =>
      finish_record (evaluateDrink d clock0) clock0 (clock0 + baseFinishSec d)
      :: walk (clock0 + baseFinishSec d) rest
  end.

(** Shape of one evaluated drink: at most one penalty, exactly one on
    ice; a dilution exactly on ice; on ice the start temperature is
    reported as it is. *)
Definition entry_shape (d : Drink) (temp : R) (dil : option R)
    (pens : list Penalty) : Prop :=
  (length pens <= 1)%nat /\
  (category d = ON_THE_ROCKS -> length pens = 1%nat) /\
  (category d <> ON_THE_ROCKS -> pens = [] \/ length pens = 1%nat) /\
  (dil <> None <-> category d = ON_THE_ROCKS) /\
  (category d = ON_THE_ROCKS -> temp = startTempC d).

(** Sum of the magnitudes of a penalty list, and of all the penalty
    lists of a timeline. *)
Definition sum_values (ps : list Penalty) : R :=
  fold_right (fun p acc => value p + acc) 0 ps.

Definition drink_penalty_total (fs : list FinishedDrink) : R :=
  fold_right (fun f acc => sum_values (penalties f) + acc) 0 fs.

(** Place of a category in the recommended order: non-chilled first,
    on the rocks second, straight-up last. *)
Definition rank (c : Category) : nat :=
  match c with
  | NON_CHILLED => 0
  | ON_THE_ROCKS => 1
  | STRAIGHT_UP => 2
  end.

(** Place of a category by a position map, 0 when the map lacks it. *)
Definition rankOf (pos : CatMap) (c : Category) : nat :=
  nullish (map_get pos c) 0%nat.

(** What one pass of the inner loop of [orderPenalty] adds for index [i]. *)
Definition inner_count (pos : CatMap) (chosen : list Category) (i : nat) : nat :=
  length
    (filter (fun j => (posAt pos chosen j <? posAt pos chosen i)%nat)
       (seq (i + 1) (length chosen - (i + 1)))).

(** All pairs [(l[i], l[j])] with [i < j]. *)
Fixpoint ordered_pairs {A : Type} (l : list A) : list (A * A) :=
  match l with
  | [] => []
  | x :: rest => map (pair x) rest ++ ordered_pairs rest
  end.

(** Number of pairs of a queue that stand in the opposite order of
    their ranks [rk]. *)
Definition inversions_by (rk : Category -> nat) (l : list Category) : nat :=
  length (filter (fun ab => (rk (snd ab) <? rk (fst ab))%nat) (ordered_pairs l)).

Definition inversions (l : list Category) : nat := inversions_by rank l.

(** The categories of a queue appear in the recommended relative order. *)
Definition in_recommended_order (l : list Category) : Prop :=
  StronglySorted (fun a b => (rank a <= rank b)%nat) l.

(** The two round-level breakdown entries. *)
Definition window_entry (w : R) : list Penalty :=
  if Rlt_dec 60 w then [mkPenalty label_window ((w - 60) * 0.2)] else [].

Definition order_entry (chosen : list Category) : list Penalty :=
  match (6 * inversions chosen)%nat with
  | O => []
  | S k => [mkPenalty label_order (INR (S k))]
  end.

Definition has_label (l : string) (ps : list Penalty) : Prop :=
  exists p, In p ps /\ label p = l.

(** [x] and [y] compare as equal in both directions. *)
Definition tied {A : Type} (cmp : A -> A -> R) (x y : A) : bool :=
  if Rle_dec (cmp x y) 0
  then if Rle_dec (cmp y x) 0 then true else false
  else false.

(** First position of a category in a queue. *)
Fixpoint position (c : Category) (queue : list Category) : option nat :=
  match queue with
  | [] => None
  | x :: rest =>
      if Category_eqb x c then Some 0%nat
      else option_map S (position c rest)
  end.

(** The order [sortByFinishQueue] is to sort by: priority of the
    category first, nominal finish duration second. *)
Definition key_le (queue : list Category) (a b : Drink) : Prop :=
  (priority queue (category a) < priority queue (category b))%nat \/
  (priority queue (category a) = priority queue (category b) /\
   baseFinishSec a <= baseFinishSec b).

Definition Req_b (x y : R) : bool :=
  if Req_dec_T x y then true else false.

(** Drinks with priority [k] and finish duration [f]; drinks of category
    [c] and finish duration [f]. *)
Definition same_key (queue : list Category) (k : nat) (f : R) (d : Drink) : bool :=
  (priority queue (category d) =? k)%nat && Req_b (baseFinishSec d) f.

Definition same_class (c : Category) (f : R) (d : Drink) : bool :=
  Category_eqb (category d) c && Req_b (baseFinishSec d) f.

(** Drink [d], the first remaining drink with its id, moves from the
    remaining drinks of [s] to the end of the timeline in [s'], evaluated
    at the clock of [s], and the clock advances by its finish duration. *)
Definition moves_one (s s' : State) (d : Drink) : Prop :=
  exists pre post,
    remaining s = pre ++ d :: post /\
    Forall (fun x => id x <> id d) pre /\
    remaining s' = pre ++ post /\
    timeline s' =
      timeline s
      ++ [finish_record (evaluateDrink d (clock s)) (clock s)
            (clock s + baseFinishSec d)] /\
    clock s' = clock s + baseFinishSec d.

Definition nonneg_durations (s : State) : Prop :=
  Forall (fun d => 0 <= baseFinishSec d) (remaining s).

(** A round under way on the catalog, nothing finished yet. *)
Definition round_start : State :=
  mkState RUNNING generateOrders recommendedOrder 0 generateOrders [] None.

(** The wait at which a drink warming from [T0] toward [ambient] with time
    constant [tau] reaches the temperature [theta]. *)
Definition crossing (tau T0 ambient theta : R) : R :=
  tau * ln ((ambient - T0) / (ambient - theta)).

(** The wait at which a class of ice reaches the dilution cap. *)
Definition saturation (s : IceSurface) : R := 0.6 / rate_of s.

(** Sum of the nominal finish durations of a list of drinks. *)
Definition total_duration (l : list Drink) : R :=
  fold_right (fun d acc => baseFinishSec d + acc) 0 l.

(** Every penalty of every entry of a timeline is nonnegative. *)
Definition nonneg_penalties (fs : list FinishedDrink) : Prop :=
  Forall (fun f => Forall (fun p => 0 <= value p) (penalties f)) fs.

(** No penalty of any entry of a timeline costs anything. *)
Definition no_penalty_cost (fs : list FinishedDrink) : Prop :=
  Forall (fun f => Forall (fun p => value p = 0) (penalties f)) fs.

(** What the category queue of the setup screen always is: without
    duplicates and of at most three entries. *)
Definition queue_ok (q : list Category) : Prop :=
  NoDup q /\ (length q <= 3)%nat.

(** A free-choice round state whose timeline is what [simulateFinish]
    returns for the drinks finished so far, in the order they were
    finished, and whose clock is its total. *)
Definition replayable (s : App.State) : Prop :=
  timeline s = finished (simulateFinish (map drink (timeline s))) /\
  clock s = totalSec (simulateFinish (map drink (timeline s))).

(** The setter calls by which the last finish of a free-choice round
    publishes its result. *)
Definition publish (s : State) (tl : list FinishedDrink) (total : R) : list Setter :=
  let sc := scoreRound tl (windowOf tl) (queue s) in
  [setResult (Some (mkResult (score sc) (windowOf tl) total (breakdown sc)));
   setPhase RESULTS].

(** The result the auto-sequential front end publishes for a catalog and
    a queue. *)
Definition suggested_result (o : list Drink) (q : list Category) : RoundResult :=
  let sim := simulateFinish (sortByFinishQueue o q) in
  let sc := scoreRound (finished sim) (windowSec sim) q in
  mkResult (score sc) (windowSec sim) (totalSec sim) (breakdown sc).

(** An auto-sequential state on the catalog [o] and the queue [q]. *)
Definition on_catalog (o : list Drink) (q : list Category) (a : AppAuto.State)
  : Prop :=
  AppAuto.orders a = o /\ AppAuto.queue a = q.

End Spec.

(** ** Basic facts *)

Module Facts.

Import Spec.

(** [Math.min(hi, Math.max(lo, x))] and [Math.max(lo, Math.min(hi, x))]
    both clamp. *)
Lemma Category_eqb_eq (a b : Category) : Category_eqb a b = true <-> a = b.
Proof. destruct a, b; simpl; split; congruence. Qed.

Lemma Category_eqb_neq (a b : Category) : Category_eqb a b = false <-> a <> b.
Proof. destruct a, b; simpl; split; congruence. Qed.

Lemma Category_eqb_refl (a : Category) : Category_eqb a a = true.
Proof. now destruct a. Qed.

Lemma Req_b_eq (x y : R) : Req_b x y = true <-> x = y.
Proof.
  unfold Req_b. destruct (Req_dec_T x y); split; congruence.
Qed.

Lemma Rmin_Rmax_clamp (lo hi x : R) :
  lo <= hi -> Rmin hi (Rmax lo x) = clamp lo hi x.
Proof.
  intros Hlh. unfold clamp, Rmin, Rmax.
  destruct (Rlt_dec x lo), (Rlt_dec hi x); repeat destruct (Rle_dec _ _); lra.
Qed.

Lemma clamp_bounds (lo hi x : R) : lo <= hi -> lo <= clamp lo hi x <= hi.
Proof.
  intros Hlh. unfold clamp.
  destruct (Rlt_dec x lo), (Rlt_dec hi x); lra.
Qed.

Lemma clamp_mono (lo hi x y : R) :
  lo <= hi -> x <= y -> clamp lo hi x <= clamp lo hi y.
Proof.
  intros Hlh Hxy. unfold clamp.
  destruct (Rlt_dec x lo), (Rlt_dec hi x), (Rlt_dec y lo), (Rlt_dec hi y); lra.
Qed.

Lemma clamp_id (lo hi x : R) : lo <= x <= hi -> clamp lo hi x = x.
Proof.
  intros Hx. unfold clamp.
  destruct (Rlt_dec x lo), (Rlt_dec hi x); lra.
Qed.

Lemma Rmax_Rmin_clamp (lo hi x : R) :
  lo <= hi -> Rmax lo (Rmin hi x) = clamp lo hi x.
Proof.
  intros Hlh. unfold clamp, Rmin, Rmax.
  destruct (Rlt_dec x lo), (Rlt_dec hi x); repeat destruct (Rle_dec _ _); lra.
Qed.

End Facts.

(** ** The physical model *)

Module PhysicalModel.

Import PrimFloat.
Import JS GameLogic Spec Facts.

Lemma dilutionAt_clamp (w : R) (s : IceSurface) :
  dilutionAt w (Some s) = clamp 0 0.6 (w * rate_of s).
Proof.
  unfold dilutionAt. rewrite Rmin_Rmax_clamp by lra.
  now destruct s.
Qed.

Lemma dilutionAt_null (w : R) :
  dilutionAt w None = dilutionAt w (Some standard).
Proof. reflexivity. Qed.

(** C5, the strict comparison as claimed fails once both classes have
    reached the cap: after 200 s large-format and crushed ice both give
    a dilution of 0.6. *)
Lemma dilutionAt_large_crushed_cap :
  0 < 200 /\
  ~ dilutionAt 200 (Some large) < dilutionAt 200 (Some crushed).
Proof.
  split; [lra|].
  rewrite !dilutionAt_clamp. unfold clamp, rate_of.
  repeat destruct (Rlt_dec _ _); lra.
Qed.

(** C5 (amended): [dilutionAt] is [waitSec * rate] clamped into
    [[0, 0.6]] with the rates 0.004, 0.0055 and 0.008 for large, standard
    and crushed ice ([null] counting as standard); it is 0 at wait 0;
    large-format ice never dilutes more than crushed ice, and strictly
    less for every wait with [0 < waitSec < 150], before the large class
    reaches the cap. *)
Theorem dilutionAt_spec (w : R) :
  (forall s, dilutionAt w (Some s) = clamp 0 0.6 (w * rate_of s)) /\
  dilutionAt w None = clamp 0 0.6 (w * 0.0055) /\
  (forall s, 0 <= dilutionAt w s <= 0.6) /\
  (forall s, dilutionAt 0 s = 0) /\
  dilutionAt w (Some large) <= dilutionAt w (Some crushed) /\
  (0 < w < 150 -> dilutionAt w (Some large) < dilutionAt w (Some crushed)) /\
  (150 <= w ->
   dilutionAt w (Some large) = 0.6 /\ dilutionAt w (Some crushed) = 0.6).
Proof.
  repeat split.
  - apply dilutionAt_clamp.
  - rewrite dilutionAt_null. apply (dilutionAt_clamp w standard).
  - destruct s as [s|]; [|rewrite dilutionAt_null];
      rewrite dilutionAt_clamp; apply clamp_bounds; lra.
  - destruct s as [s|]; [|rewrite dilutionAt_null];
      rewrite dilutionAt_clamp; apply clamp_bounds; lra.
  - intros [s|]; [|rewrite dilutionAt_null];
      rewrite dilutionAt_clamp, Rmult_0_l; apply clamp_id; lra.
  - rewrite !dilutionAt_clamp. unfold clamp, rate_of.
    repeat destruct (Rlt_dec _ _); lra.
  - intros Hw. rewrite !dilutionAt_clamp. unfold clamp, rate_of.
    repeat destruct (Rlt_dec _ _); lra.
  - rewrite dilutionAt_clamp. unfold clamp, rate_of.
    repeat destruct (Rlt_dec _ _); lra.
  - rewrite dilutionAt_clamp. unfold clamp, rate_of.
    repeat destruct (Rlt_dec _ _); lra.
Qed.

Lemma dilutionAt_spec_witness :
  0 < 60 < 150 /\
  dilutionAt 60 (Some large) < dilutionAt 60 (Some crushed).
Proof.
  split; [lra|].
  apply (dilutionAt_spec 60). lra.
Defined.

Lemma exp_monotone (x y : R) : x <= y -> exp x <= exp y.
Proof.
  intros [Hlt | ->]; [left; now apply exp_increasing | right; reflexivity].
Qed.

Lemma decay_antitone (tau w1 w2 : R) :
  0 < tau -> w1 <= w2 ->
  exp (- Rmax 0 w2 / tau) <= exp (- Rmax 0 w1 / tau).
Proof.
  intros Htau Hw. apply exp_monotone.
  assert (Hm : Rmax 0 w1 <= Rmax 0 w2).
  { unfold Rmax. repeat destruct (Rle_dec _ _); lra. }
  unfold Rdiv. apply Rmult_le_compat_r.
  - left. now apply Rinv_0_lt_compat.
  - lra.
Qed.

(** In exact arithmetic the sum at wait 0 gives the start temperature
    back; [tempAt64_rest_drift] below shows that its rounding need not. *)
Lemma tempAt_start (T0 ambient tau : R) : tempAt 0 T0 ambient tau = T0.
Proof.
  unfold tempAt.
  replace (Rmax 0 0) with 0 by (unfold Rmax; destruct (Rle_dec 0 0); lra).
  replace (- 0 / tau) with 0 by (unfold Rdiv; ring).
  rewrite exp_0. ring.
Qed.

Lemma tempAt_warming (T0 ambient tau w1 w2 : R) :
  0 < tau -> T0 <= ambient -> w1 <= w2 ->
  tempAt w1 T0 ambient tau <= tempAt w2 T0 ambient tau.
Proof.
  intros Htau HT Hw. unfold tempAt. cbv zeta.
  pose proof (decay_antitone tau w1 w2 Htau Hw) as He.
  apply Rplus_le_compat_l, Rmult_le_compat_neg_l; [lra | exact He].
Qed.

(** A drink that starts at -4 degrees in a 22-degree room is warmer after
    120 s than at the start. *)
Lemma tempAt_not_nonincreasing :
  0 <= 0 <= 120 /\ -4 < 22 /\ 0 < 120 /\
  ~ tempAt 120 (-4) 22 120 <= tempAt 0 (-4) 22 120.
Proof.
  repeat split; try lra.
  rewrite tempAt_start. unfold tempAt. cbv zeta.
  replace (Rmax 0 120) with 120 by (unfold Rmax; destruct (Rle_dec 0 120); lra).
  replace (- (120) / 120) with (- (1)) by field.
  assert (He : exp (- (1)) < 1).
  { pose proof (exp_increasing (- (1)) 0) as Hinc.
    rewrite exp_0 in Hinc. apply Hinc. lra. }
  lra.
Qed.

(** At wait 0 the decay factor is [exp 0 = 1]. *)
Lemma tempAt_rest (T0 ambient tau : R) :
  tempAt 0 T0 ambient tau = ambient + (T0 - ambient) * 1.
Proof.
  unfold tempAt. cbv zeta.
  replace (Rmax 0 0) with 0 by (unfold Rmax; destruct (Rle_dec 0 0); lra).
  replace (- 0 / tau) with 0 by (unfold Rdiv; ring).
  now rewrite exp_0.
Qed.

(** The same on binary64 numbers, for the two time constants in use:
    [Math.max(0, 0)] is [0], [-0 / tauSec] is [-0], [Math.exp(-0)] is 1. *)
Lemma tempAt64_rest (exp64 : PrimFloat.float -> PrimFloat.float)
    (T0 ambient : PrimFloat.float) :
  exp64 (-0)%float = 1%float ->
  Binary64.tempAt64 exp64 0 T0 ambient 120
  = (ambient + (T0 - ambient) * 1)%float /\
  Binary64.tempAt64 exp64 0 T0 ambient 240
  = (ambient + (T0 - ambient) * 1)%float.
Proof.
  intros H. unfold Binary64.tempAt64. cbv zeta.
  change (- Binary64.Math_max 0 0 / 120)%float with (-0)%float.
  change (- Binary64.Math_max 0 0 / 240)%float with (-0)%float.
  rewrite H. split; reflexivity.
Qed.

(** In binary64 that sum need not give the start temperature back: from
    0.1 in a 22-degree room it gives 0.10000000000000142. *)
Lemma tempAt64_rest_drift (exp64 : PrimFloat.float -> PrimFloat.float) :
  exp64 (-0)%float = 1%float ->
  Binary64.tempAt64 exp64 0 Binary64.tenth 22 120 = Binary64.tenth_drifted.
Proof.
  intros H. destruct (tempAt64_rest exp64 Binary64.tenth 22 H) as [-> _].
  reflexivity.
Qed.

(** C6, as claimed it fails twice.  The direction: a drink that starts at
    -4 degrees in a 22-degree room is warmer after 120 s than at the start.
    The value at wait 0: the code adds [ambient + (T0 - ambient) * 1] in
    binary64, which for a start at 0.1 degrees in a 22-degree room is not
    0.1. *)
Lemma tempAt_claim_fails :
  (0 <= 0 <= 120 /\ -4 < 22 /\ 0 < 120 /\
   ~ tempAt 120 (-4) 22 120 <= tempAt 0 (-4) 22 120) /\
  ~ (forall exp64 : PrimFloat.float -> PrimFloat.float,
       exp64 (-0)%float = 1%float ->
       Binary64.tempAt64 exp64 0 Binary64.tenth 22 120 = Binary64.tenth).
Proof.
  split; [exact tempAt_not_nonincreasing|].
  intros Hall.
  pose proof (Hall (fun _ => 1%float) eq_refl) as Heq.
  rewrite (tempAt64_rest_drift (fun _ => 1%float) eq_refl) in Heq.
  apply (f_equal (fun x => PrimFloat.eqb x Binary64.tenth)) in Heq.
  vm_compute in Heq. discriminate Heq.
Qed.

(** C6 (amended): with a positive time constant and a start temperature
    below ambient, [tempAt] is monotonically non-decreasing in the wait:
    for every [0 <= w1 <= w2], [tempAt w1 <= tempAt w2]; and at wait 0, for
    every start temperature, ambient and positive time constant, the decay
    factor is 1 and [tempAt] returns [ambient + (T0 - ambient) * 1], the
    start temperature up to the rounding of that sum. *)
Theorem tempAt_relaxation (T0 ambient tau : R) :
  0 < tau ->
  tempAt 0 T0 ambient tau = ambient + (T0 - ambient) * 1 /\
  (T0 < ambient ->
   forall w1 w2, 0 <= w1 <= w2 ->
     tempAt w1 T0 ambient tau <= tempAt w2 T0 ambient tau).
Proof.
  intros Htau. split.
  - apply tempAt_rest.
  - intros HT w1 w2 [_ Hw]. apply tempAt_warming; lra.
Qed.

Lemma tempAt_relaxation_witness :
  0 < 120 /\ -4 < 22 /\ 0 <= 0 <= 120 /\
  tempAt 0 (-4) 22 120 = 22 + (-4 - 22) * 1 /\
  tempAt 0 (-4) 22 120 <= tempAt 120 (-4) 22 120.
Proof.
  assert (Htau : 0 < 120) by lra.
  assert (HT : -4 < 22) by lra.
  assert (Hw : 0 <= 0 <= 120) by lra.
  destruct (tempAt_relaxation (-4) 22 120 Htau) as [H0 Hmono].
  split; [exact Htau|]. split; [exact HT|]. split; [exact Hw|].
  split; [exact H0 | exact (Hmono HT 0 120 Hw)].
Defined.

End PhysicalModel.

(** ** Per-drink evaluation *)

Module Evaluation.

Import JS GameLogic App Spec.

(** C1: [evaluateDrink] dispatches on the category.  Straight-up: the
    temperature is [tempAt wait startTemp 22 120], with the penalty
    [(temperature / 10) * 12] exactly when it exceeds 0.  On the rocks:
    the dilution is [dilutionAt wait] of the ice surface (standard by
    default) and the penalty list is exactly the one dilution penalty
    [|dilution - ideal| * 80] (ideal 0.33 by default), so nothing is
    charged for temperature.  Non-chilled: the temperature is
    [tempAt wait startTemp 22 240], with the penalty
    [(temperature - 10) * 2] exactly when it exceeds 12. *)
Theorem evaluateDrink_dispatch (d : Drink) (wait : R) :
  let e := evaluateDrink d wait in
  ev_drink e = d /\
  match category d with
  | STRAIGHT_UP =>
      let t := tempAt wait (startTempC d) 22 120 in
      ev_tempC e = t /\
      ((0 < t /\ ev_penalties e = [mkPenalty label_warm (t / 10 * 12)]) \/
       (t <= 0 /\ ev_penalties e = []))
  | ON_THE_ROCKS =>
      let dil := dilutionAt wait (Some (nullish (iceSurface d) standard)) in
      let ideal := nullish (idealDilution d) 0.33 in
      ev_dilution e = Some dil /\
      ev_tempC e = startTempC d /\
      ev_penalties e = [mkPenalty label_dilution (Rabs (dil - ideal) * 80)]
  | NON_CHILLED =>
      let t := tempAt wait (startTempC d) 22 240 in
      ev_tempC e = t /\
      ((12 < t /\ ev_penalties e = [mkPenalty label_lost_chill ((t - 10) * 2)]) \/
       (t <= 12 /\ ev_penalties e = []))
  end.
Proof.
  unfold evaluateDrink.
  destruct (category d); simpl.
  - split; [reflexivity|]. split; [reflexivity|].
    destruct (Rlt_dec 0 (tempAt wait (startTempC d) 22 120)); simpl.
    + left. now split.
    + right. split; [lra | reflexivity].
  - repeat split; reflexivity.
  - split; [reflexivity|]. split; [reflexivity|].
    destruct (Rlt_dec 12 (tempAt wait (startTempC d) 22 240)); simpl.
    + left. now split.
    + right. split; [lra | reflexivity].
Qed.

Lemma simulateFinish_body_eq (st : SimLoop) (d : Drink) :
  simulateFinish_body st d =
  mkSimLoop (sim_clock st + baseFinishSec d)
    (sim_finishTimes st ++ [sim_clock st + baseFinishSec d])
    (sim_finished st
     ++ [finish_record (evaluateDrink d (sim_clock st)) (sim_clock st)
           (sim_clock st + baseFinishSec d)]).
Proof.
  unfold simulateFinish_body, evaluateDrink, finish_record.
  destruct (category d); reflexivity.
Qed.

Lemma simulateFinish_loop (l : list Drink) (st : SimLoop) :
  let st' := fold_left simulateFinish_body l st in
  sim_finished st' = sim_finished st ++ walk (sim_clock st) l /\
  sim_finishTimes st' =
    sim_finishTimes st ++ map finishedAt (walk (sim_clock st) l) /\
  sim_clock st' = fold_left (fun c d => c + baseFinishSec d) l (sim_clock st).
Proof.
  revert st. induction l as [|d l IH]; intros st; simpl.
  - now rewrite !app_nil_r.
  - specialize (IH (simulateFinish_body st d)).
    rewrite simulateFinish_body_eq in IH |- *. simpl in IH.
    destruct IH as (Hf & Ht & Hc). cbv zeta.
    rewrite Hf, Ht, Hc, <- !app_assoc. repeat split.
Qed.

Lemma simulateFinish_finished (l : list Drink) :
  finished (simulateFinish l) = walk 0 l.
Proof.
  unfold simulateFinish. simpl.
  now destruct (simulateFinish_loop l (mkSimLoop 0 [] [])) as (-> & _).
Qed.

Lemma evaluateDrink_shape (d : Drink) (wait : R) :
  let e := evaluateDrink d wait in
  entry_shape d (ev_tempC e) (ev_dilution e) (ev_penalties e).
Proof.
  unfold entry_shape, evaluateDrink.
  destruct (category d); simpl; repeat destruct (Rlt_dec _ _); simpl;
    repeat split; try congruence; try lia; auto.
Qed.

Lemma evaluateDrink_drink (d : Drink) (wait : R) :
  ev_drink (evaluateDrink d wait) = d.
Proof. unfold evaluateDrink. now destruct (category d). Qed.

Lemma walk_shape (l : list Drink) (c : R) :
  Forall (fun f => entry_shape (drink f) (tempC f) (dilution f) (penalties f))
    (walk c l).
Proof.
  revert c. induction l as [|d l IH]; intros c; simpl; constructor.
  - unfold finish_record; simpl. rewrite evaluateDrink_drink.
    apply evaluateDrink_shape.
  - apply IH.
Qed.

Lemma walk_entries (l : list Drink) (c : R) :
  Forall2
    (fun d f =>
       drink f = d /\
       entry_shape d (tempC f) (dilution f) (penalties f))
    l (walk c l).
Proof.
  revert c. induction l as [|d l IH]; intros c; simpl; constructor.
  - unfold finish_record; simpl. rewrite evaluateDrink_drink.
    split; [reflexivity | apply evaluateDrink_shape].
  - apply IH.
Qed.

(** C10: a per-drink evaluation emits at most one penalty entry, exactly
    one for an on-the-rocks drink and none or one otherwise; its dilution
    is defined if and only if the drink is on the rocks; and for an
    on-the-rocks drink the reported temperature is the start temperature.
    This holds for [evaluateDrink], for the record [finishById] makes of
    its result, and for [simulateFinish], which with its own copy of the
    rules returns for each drink it is given, in order, one entry of that
    drink and of this shape. *)
Theorem evaluation_shape :
  (forall d wait,
     let e := evaluateDrink d wait in
     ev_drink e = d /\
     entry_shape d (ev_tempC e) (ev_dilution e) (ev_penalties e)) /\
  (forall d wait finishedAt,
     let f := finish_record (evaluateDrink d wait) wait finishedAt in
     drink f = d /\
     entry_shape (drink f) (tempC f) (dilution f) (penalties f)) /\
  (forall l,
     Forall2
       (fun d f =>
          drink f = d /\
          entry_shape d (tempC f) (dilution f) (penalties f))
       l (finished (simulateFinish l))) /\
  (forall l,
     length (finished (simulateFinish l)) = length l /\
     Forall (fun f => entry_shape (drink f) (tempC f) (dilution f) (penalties f))
       (finished (simulateFinish l))).
Proof.
  split; [|split; [|split]].
  - intros d wait. split; [apply evaluateDrink_drink | apply evaluateDrink_shape].
  - intros d wait fin. cbn [finish_record drink tempC dilution penalties].
    rewrite evaluateDrink_drink. split; [reflexivity|].
    apply evaluateDrink_shape.
  - intros l. rewrite simulateFinish_finished. apply walk_entries.
  - intros l. rewrite simulateFinish_finished. split; [|apply walk_shape].
    pose proof (walk_entries l 0) as H. apply Forall2_length in H. now symmetry.
Qed.

End Evaluation.

(** ** Round scoring *)

Module Scoring.

Import JS GameLogic App Spec Facts.

(** *** The inversion count of [orderPenalty] *)

Lemma fold_count {A : Type} (f : A -> bool) (l : list A) (n : nat) :
  fold_left (fun inv j => if f j then S inv else inv) l n
  = (n + length (filter f l))%nat.
Proof.
  revert n. induction l as [|a l IH]; intros n; simpl.
  - lia.
  - rewrite IH. destruct (f a); simpl; lia.
Qed.

Lemma fold_add {A : Type} (h : A -> nat) (l : list A) (n : nat) :
  fold_left (fun inv i => (inv + h i)%nat) l n = (n + list_sum (map h l))%nat.
Proof.
  revert n. induction l as [|a l IH]; intros n; simpl.
  - lia.
  - rewrite IH. lia.
Qed.

Lemma filter_map_length {A B : Type} (g : A -> B) (f : B -> bool) (l : list A) :
  length (filter f (map g l)) = length (filter (fun a => f (g a)) l).
Proof.
  induction l as [|a l IH]; simpl; [reflexivity|].
  destruct (f (g a)); simpl; now rewrite IH.
Qed.

Lemma posAt_cons (pos : CatMap) (x : Category) (xs : list Category) (j : nat) :
  posAt pos (x :: xs) (S j) = posAt pos xs j.
Proof. reflexivity. Qed.

Lemma posAt_head (pos : CatMap) (x : Category) (xs : list Category) :
  posAt pos (x :: xs) 0 = rankOf pos x.
Proof. reflexivity. Qed.

(** Counting indices of [xs] is counting its elements. *)
Lemma count_indices (pos : CatMap) (q : nat -> bool) (xs : list Category) :
  length (filter (fun j => q (posAt pos xs j)) (seq 0 (length xs)))
  = length (filter (fun y => q (rankOf pos y)) xs).
Proof.
  induction xs as [|x xs IH]; [reflexivity|].
  cbn [length seq filter]. rewrite posAt_head.
  assert (Hrest :
    length (filter (fun j => q (posAt pos (x :: xs) j)) (seq 1 (length xs)))
    = length (filter (fun y => q (rankOf pos y)) xs)).
  { rewrite <- seq_shift, filter_map_length.
    erewrite filter_ext; [exact IH|]. intros j. now rewrite posAt_cons. }
  destruct (q (rankOf pos x)); cbn [length]; now rewrite Hrest.
Qed.

Lemma orderPenalty_inner_count pos chosen i inv :
  orderPenalty_inner pos chosen i inv = (inv + inner_count pos chosen i)%nat.
Proof. unfold orderPenalty_inner, inner_count. apply fold_count. Qed.

Lemma inner_count_head pos x xs :
  inner_count pos (x :: xs) 0
  = length (filter (fun y => (rankOf pos y <? rankOf pos x)%nat) xs).
Proof.
  unfold inner_count. simpl length.
  replace (S (length xs) - (0 + 1))%nat with (length xs) by lia.
  change (0 + 1)%nat with 1%nat.
  rewrite <- seq_shift, filter_map_length.
  rewrite posAt_head.
  erewrite filter_ext; [|intros j; rewrite posAt_cons; reflexivity].
  rewrite ?Nat.sub_0_r.
  apply (count_indices pos (fun n => (n <? rankOf pos x)%nat)).
Qed.

Lemma inner_count_tail pos x xs i :
  inner_count pos (x :: xs) (S i) = inner_count pos xs i.
Proof.
  unfold inner_count. simpl length.
  replace (S (length xs) - (S i + 1))%nat with (length xs - (i + 1))%nat by lia.
  change (S i + 1)%nat with (S (i + 1)).
  rewrite <- seq_shift, filter_map_length.
  erewrite filter_ext; [reflexivity|].
  intros j. now rewrite !posAt_cons.
Qed.

Lemma outer_fold pos chosen (l : list nat) (n : nat) :
  fold_left (fun inv i => orderPenalty_inner pos chosen i inv) l n
  = (n + list_sum (map (inner_count pos chosen) l))%nat.
Proof.
  revert n. induction l as [|i l IH]; intros n; simpl.
  - lia.
  - rewrite IH, orderPenalty_inner_count. lia.
Qed.

Lemma inversionsOf_sum reco chosen :
  inversionsOf reco chosen
  = list_sum (map (inner_count (posOf reco) chosen) (seq 0 (length chosen))).
Proof. unfold inversionsOf. now rewrite outer_fold. Qed.

Lemma inversions_by_cons rk x xs :
  inversions_by rk (x :: xs)
  = (length (filter (fun y => (rk y <? rk x)%nat) xs) + inversions_by rk xs)%nat.
Proof.
  unfold inversions_by. simpl.
  rewrite filter_app, length_app, filter_map_length. reflexivity.
Qed.

Lemma inversionsOf_inversions_by reco chosen :
  inversionsOf reco chosen = inversions_by (rankOf (posOf reco)) chosen.
Proof.
  rewrite inversionsOf_sum.
  induction chosen as [|x xs IH]; [reflexivity|].
  rewrite inversions_by_cons, <- IH. simpl length. simpl seq. simpl map.
  simpl list_sum. rewrite inner_count_head. f_equal.
  rewrite <- seq_shift, map_map.
  f_equal. apply map_ext. intros i. apply inner_count_tail.
Qed.

Lemma rankOf_recommended (c : Category) :
  rankOf (posOf recommendedOrder) c = rank c.
Proof. now destruct c. Qed.

Lemma inversions_by_ext rk rk' l :
  (forall c, rk c = rk' c) -> inversions_by rk l = inversions_by rk' l.
Proof.
  intros H. unfold inversions_by. f_equal. apply filter_ext.
  intros [a b]. simpl. now rewrite !H.
Qed.

Lemma orderPenalty_recommended chosen :
  orderPenalty recommendedOrder chosen = (6 * inversions chosen)%nat.
Proof.
  unfold orderPenalty, inversions.
  rewrite inversionsOf_inversions_by.
  rewrite (inversions_by_ext _ rank) by apply rankOf_recommended. lia.
Qed.

Lemma filter_none {A : Type} (f : A -> bool) (l : list A) :
  length (filter f l) = 0%nat <-> Forall (fun y => f y = false) l.
Proof.
  induction l as [|a l IH]; simpl.
  - split; [constructor | reflexivity].
  - destruct (f a) eqn:Ha; simpl.
    + split; [discriminate | intros H; inversion H; congruence].
    + rewrite IH. split; [now constructor | intros H; now inversion H].
Qed.

Lemma inversions_zero_iff (l : list Category) :
  inversions l = 0%nat <-> in_recommended_order l.
Proof.
  unfold inversions, in_recommended_order.
  induction l as [|x xs IH].
  - split; [constructor | reflexivity].
  - rewrite inversions_by_cons. split.
    + intros H.
      assert (Hc : length (filter (fun y => (rank y <? rank x)%nat) xs) = 0%nat) by lia.
      assert (Hi : inversions_by rank xs = 0%nat) by lia.
      constructor; [now apply IH|].
      apply filter_none in Hc. eapply Forall_impl; [|exact Hc].
      intros y Hy. simpl in Hy. apply Nat.ltb_ge in Hy. exact Hy.
    + intros H. inversion H as [|? ? Hs Hall]; subst.
      apply IH in Hs. rewrite Hs, Nat.add_0_r.
      apply filter_none. eapply Forall_impl; [|exact Hall].
      intros y Hy. simpl. now apply Nat.ltb_ge.
Qed.

(** *** The three phases of [scoreRound] *)

Lemma windowStep_eq (w sc : R) (bd : list Penalty) :
  windowStep w (sc, bd)
  = (sc - sum_values (window_entry w), bd ++ window_entry w).
Proof.
  unfold windowStep, window_entry.
  destruct (Rlt_dec 60 w); simpl.
  - f_equal. lra.
  - rewrite app_nil_r. f_equal. lra.
Qed.

Lemma order_entry_sum (chosen : list Category) :
  sum_values (order_entry chosen) = INR (6 * inversions chosen).
Proof.
  unfold order_entry.
  destruct (6 * inversions chosen)%nat; unfold sum_values, fold_right, value.
  - simpl. reflexivity.
  - lra.
Qed.

Lemma orderStep_eq (chosen : list Category) (sc : R) (bd : list Penalty) :
  orderStep chosen (sc, bd)
  = (sc - sum_values (order_entry chosen), bd ++ order_entry chosen).
Proof.
  rewrite order_entry_sum.
  unfold orderStep, order_entry. rewrite orderPenalty_recommended.
  destruct (6 * inversions chosen)%nat as [|k] eqn:Hk.
  - cbn [Nat.ltb Nat.leb fst snd INR]. rewrite app_nil_r. f_equal. lra.
  - reflexivity.
Qed.

Lemma penalty_fold (ps : list Penalty) (sc : R) :
  fold_left (fun s p => s - value p) ps sc = sc - sum_values ps.
Proof.
  revert sc. induction ps as [|p ps IH]; intros sc; simpl.
  - lra.
  - rewrite IH. lra.
Qed.

Lemma drink_fold (fs : list FinishedDrink) (sc : R) :
  fold_left drinkStep fs sc = sc - drink_penalty_total fs.
Proof.
  revert sc. induction fs as [|f fs IH]; intros sc; simpl.
  - lra.
  - rewrite IH. unfold drinkStep. rewrite penalty_fold. lra.
Qed.

Lemma scoreLoop_eq finished w chosen :
  scoreLoop finished w chosen
  = (100 - sum_values (window_entry w) - sum_values (order_entry chosen)
       - drink_penalty_total finished,
     window_entry w ++ order_entry chosen).
Proof.
  unfold scoreLoop. rewrite windowStep_eq, orderStep_eq. simpl.
  now rewrite drink_fold.
Qed.

Lemma labels_distinct : label_order <> label_window.
Proof. discriminate. Qed.

Lemma order_entry_label (chosen : list Category) :
  Forall (fun p => label p = label_order) (order_entry chosen).
Proof.
  unfold order_entry. destruct (6 * inversions chosen)%nat; repeat constructor.
Qed.

Lemma window_entry_label (w : R) :
  Forall (fun p => label p = label_window) (window_entry w).
Proof.
  unfold window_entry. destruct (Rlt_dec 60 w); repeat constructor.
Qed.

(** C2: [scoreRound] starts from 100, takes off the window penalty and
    the ordering penalty, each with a breakdown entry of its own, then
    every penalty of every finished drink; the breakdown holds the two
    round-level entries only, whatever the timeline; and the returned
    score, the result clamped, lies in [[0, 100]] for every input. *)
Theorem scoreRound_spec finished w chosen :
  let r := scoreRound finished w chosen in
  score r =
    clamp 0 100
      (100 - sum_values (window_entry w) - sum_values (order_entry chosen)
       - drink_penalty_total finished) /\
  breakdown r = window_entry w ++ order_entry chosen /\
  breakdown r = breakdown (scoreRound [] w chosen) /\
  (length (breakdown r) <= 2)%nat /\
  Forall (fun p => label p = label_window \/ label p = label_order) (breakdown r) /\
  0 <= score r <= 100.
Proof.
  unfold scoreRound. rewrite !scoreLoop_eq. cbn [fst snd score breakdown].
  rewrite Rmax_Rmin_clamp by lra.
  repeat split.
  - unfold window_entry, order_entry.
    destruct (Rlt_dec 60 w), (6 * inversions chosen)%nat; simpl; lia.
  - apply Forall_app. split.
    + eapply Forall_impl; [|apply window_entry_label]. intros; now left.
    + eapply Forall_impl; [|apply order_entry_label]. intros; now right.
  - apply clamp_bounds; lra.
  - apply clamp_bounds; lra.
Qed.

Lemma rawScore_eq finished w chosen :
  rawScore finished w chosen
  = 100 - sum_values (window_entry w) - INR (6 * inversions chosen)
    - drink_penalty_total finished.
Proof.
  unfold rawScore. now rewrite scoreLoop_eq, order_entry_sum.
Qed.

Lemma breakdown_eq finished w chosen :
  breakdown (scoreRound finished w chosen) = window_entry w ++ order_entry chosen.
Proof. unfold scoreRound. now rewrite scoreLoop_eq. Qed.

Lemma has_label_app l ps qs :
  has_label l (ps ++ qs) <-> has_label l ps \/ has_label l qs.
Proof.
  unfold has_label. split.
  - intros (p & Hin & Hl). apply in_app_or in Hin.
    destruct Hin; [left | right]; eauto.
  - intros [(p & Hin & Hl) | (p & Hin & Hl)]; exists p; split; auto;
      apply in_or_app; auto.
Qed.

Lemma has_label_Forall l l' ps :
  Forall (fun p => label p = l') ps -> l' <> l -> ~ has_label l ps.
Proof.
  intros Hall Hne (p & Hin & Hl).
  rewrite Forall_forall in Hall. apply Hall in Hin. congruence.
Qed.

Lemma window_label_iff finished w chosen :
  has_label label_window (breakdown (scoreRound finished w chosen)) <-> 60 < w.
Proof.
  rewrite breakdown_eq, has_label_app. split.
  - intros [Hw | Ho].
    + unfold window_entry in Hw. destruct (Rlt_dec 60 w); [assumption|].
      now destruct Hw as (p & [] & _).
    + exfalso. revert Ho. apply (has_label_Forall _ label_order).
      * apply order_entry_label.
      * apply labels_distinct.
  - intros Hw. left. unfold window_entry.
    destruct (Rlt_dec 60 w); [|contradiction].
    eexists. split; [left; reflexivity | reflexivity].
Qed.

Lemma order_label_iff finished w chosen :
  has_label label_order (breakdown (scoreRound finished w chosen))
  <-> inversions chosen <> 0%nat.
Proof.
  rewrite breakdown_eq, has_label_app. split.
  - intros [Hw | Ho].
    + exfalso. revert Hw. apply (has_label_Forall _ label_window).
      * apply window_entry_label.
      * intros H. apply labels_distinct. now symmetry.
    + unfold order_entry in Ho. intros Hz. rewrite Hz in Ho.
      now destruct Ho as (p & [] & _).
  - intros Hnz. right. unfold order_entry.
    destruct (6 * inversions chosen)%nat eqn:Hk; [lia|].
    eexists. split; [left; reflexivity | reflexivity].
Qed.

(** C4: the breakdown of [scoreRound] has a window entry if and only if
    [windowSec > 60]; then the entry is [(windowSec - 60) * 0.2] and that
    amount is taken off the score; for every [windowSec <= 60], 60
    included, there is no window entry and nothing is taken off for the
    window. *)
Theorem window_penalty_exclusive finished w chosen :
  let r := scoreRound finished w chosen in
  let others :=
    INR (orderPenalty recommendedOrder chosen) + drink_penalty_total finished in
  score r = Rmax 0 (Rmin 100 (rawScore finished w chosen)) /\
  (has_label label_window (breakdown r) <-> 60 < w) /\
  (60 < w ->
   In (mkPenalty label_window ((w - 60) * 0.2)) (breakdown r) /\
   rawScore finished w chosen = 100 - (w - 60) * 0.2 - others) /\
  (w <= 60 ->
   ~ has_label label_window (breakdown r) /\
   rawScore finished w chosen = 100 - others).
Proof.
  cbv zeta. split; [reflexivity|].
  rewrite orderPenalty_recommended, rawScore_eq.
  split; [apply window_label_iff|]. split.
  - intros Hw. rewrite breakdown_eq. unfold window_entry.
    destruct (Rlt_dec 60 w); [|contradiction]. split.
    + left. reflexivity.
    + simpl. lra.
  - intros Hw. split.
    + rewrite window_label_iff. lra.
    + unfold window_entry. destruct (Rlt_dec 60 w); [lra|]. simpl. lra.
Qed.

Lemma window_penalty_exclusive_witness :
  60 <= 60 /\
  ~ has_label label_window (breakdown (scoreRound [] 60 recommendedOrder)) /\
  60 < 100 /\
  In (mkPenalty label_window ((100 - 60) * 0.2))
     (breakdown (scoreRound [] 100 recommendedOrder)).
Proof.
  assert (H60 : 60 <= 60) by lra.
  assert (H100 : 60 < 100) by lra.
  destruct (window_penalty_exclusive [] 60 recommendedOrder) as (_ & _ & _ & Hle).
  destruct (window_penalty_exclusive [] 100 recommendedOrder) as (_ & _ & Hgt & _).
  repeat split; try assumption.
  - apply (Hle H60).
  - apply (Hgt H100).
Defined.

(** C3: the ordering penalty of [scoreRound] is 6 times the number of
    category pairs of the chosen queue that stand against the recommended
    order (non-chilled, on the rocks, straight-up); it is 0, and the
    breakdown has no ordering entry, if and only if the categories of the
    chosen queue appear in the recommended relative order; otherwise the
    entry carries the penalty, which is taken off the score. *)
Theorem orderPenalty_spec finished w chosen :
  let r := scoreRound finished w chosen in
  orderPenalty recommendedOrder chosen = (6 * inversions chosen)%nat /\
  (orderPenalty recommendedOrder chosen = 0%nat <-> in_recommended_order chosen) /\
  (~ has_label label_order (breakdown r) <-> in_recommended_order chosen) /\
  (~ in_recommended_order chosen ->
   In (mkPenalty label_order (INR (6 * inversions chosen))) (breakdown r)) /\
  rawScore finished w chosen
  = 100 - sum_values (window_entry w)
    - INR (orderPenalty recommendedOrder chosen) - drink_penalty_total finished.
Proof.
  cbv zeta. rewrite orderPenalty_recommended.
  split; [reflexivity|]. split; [|split; [|split]].
  - rewrite <- inversions_zero_iff. lia.
  - rewrite order_label_iff, <- inversions_zero_iff.
    destruct (inversions chosen); split; intros H; try lia; try congruence.
  - intros Hns. rewrite breakdown_eq. apply in_or_app. right.
    unfold order_entry.
    destruct (6 * inversions chosen)%nat eqn:Hk.
    + exfalso. apply Hns. apply inversions_zero_iff. lia.
    + left. reflexivity.
  - apply rawScore_eq.
Qed.

Lemma orderPenalty_spec_witness :
  ~ in_recommended_order [STRAIGHT_UP; NON_CHILLED; ON_THE_ROCKS] /\
  In (mkPenalty label_order (INR 12))
     (breakdown (scoreRound [] 0 [STRAIGHT_UP; NON_CHILLED; ON_THE_ROCKS])).
Proof.
  assert (Hns : ~ in_recommended_order [STRAIGHT_UP; NON_CHILLED; ON_THE_ROCKS]).
  { intros H. inversion H as [|? ? _ Hall]; subst.
    inversion Hall as [|? ? Hle _]; subst. simpl in Hle. lia. }
  split; [exact Hns|].
  destruct (orderPenalty_spec [] 0 [STRAIGHT_UP; NON_CHILLED; ON_THE_ROCKS])
    as (_ & _ & _ & Hin & _).
  exact (Hin Hns).
Defined.

(** The queue against the recommended order has three inversions, the
    recommended queue none. *)
Example orderPenalty_reversed :
  orderPenalty recommendedOrder [STRAIGHT_UP; ON_THE_ROCKS; NON_CHILLED] = 18%nat.
Proof. reflexivity. Qed.

Example orderPenalty_recommended_queue :
  orderPenalty recommendedOrder recommendedOrder = 0%nat.
Proof. reflexivity. Qed.

End Scoring.

(** ** The queue builder *)

Module QueueBuilder.

Import JS GameLogic App Spec Facts.

(** *** The stable insertion sort *)

Section StableSort.
Context {A : Type} (cmp : A -> A -> R) (le : A -> A -> Prop).
Hypothesis cmp_le : forall a b, cmp a b <= 0 <-> le a b.
Hypothesis le_total : forall a b, le a b \/ le b a.
Hypothesis le_trans : forall a b c, le a b -> le b c -> le a c.

Lemma sort_insert_perm (x : A) (l : list A) :
  Permutation (x :: l) (sort_insert cmp x l).
Proof.
  induction l as [|y l IH]; simpl.
  - apply Permutation_refl.
  - destruct (Rle_dec (cmp x y) 0).
    + apply Permutation_refl.
    + eapply perm_trans; [apply perm_swap|]. now apply perm_skip.
Qed.

Lemma sort_perm (l : list A) : Permutation l (sort cmp l).
Proof.
  induction l as [|x l IH]; simpl.
  - apply perm_nil.
  - eapply perm_trans; [apply perm_skip, IH | apply sort_insert_perm].
Qed.

Lemma sort_insert_sorted (x : A) (l : list A) :
  StronglySorted le l -> StronglySorted le (sort_insert cmp x l).
Proof.
  induction l as [|y l IH]; intros Hs; simpl.
  - repeat constructor.
  - inversion Hs as [|? ? Hsl Hall]; subst.
    destruct (Rle_dec (cmp x y) 0) as [Hxy | Hxy].
    + apply cmp_le in Hxy. constructor; [assumption|].
      constructor; [assumption|].
      eapply Forall_impl; [|exact Hall]. intros z Hz. eauto.
    + assert (Hyx : le y x).
      { destruct (le_total x y) as [H | H]; [|exact H].
        apply cmp_le in H. contradiction. }
      constructor; [now apply IH|].
      eapply Permutation_Forall; [apply sort_insert_perm|].
      now constructor.
Qed.

Lemma sort_sorted (l : list A) : StronglySorted le (sort cmp l).
Proof.
  induction l as [|x l IH]; simpl.
  - constructor.
  - now apply sort_insert_sorted.
Qed.

(** Elements that the comparator ties keep their order. *)
Lemma sort_insert_stable (p : A -> bool) (x : A) (l : list A) :
  (forall a b, p a = true -> p b = true -> cmp a b <= 0) ->
  filter p (sort_insert cmp x l) = filter p (x :: l).
Proof.
  intros Htie. induction l as [|y l IH]; [reflexivity|].
  cbn [sort_insert]. destruct (Rle_dec (cmp x y) 0) as [Hxy | Hxy].
  - reflexivity.
  - cbn [filter] in IH |- *. rewrite IH.
    destruct (p x) eqn:Hpx, (p y) eqn:Hpy; try reflexivity.
    exfalso. apply Hxy. now apply Htie.
Qed.

Lemma sort_stable (p : A -> bool) (l : list A) :
  (forall a b, p a = true -> p b = true -> cmp a b <= 0) ->
  filter p (sort cmp l) = filter p l.
Proof.
  intros Htie. induction l as [|x l IH]; [reflexivity|].
  cbn [sort]. rewrite sort_insert_stable by assumption.
  cbn [filter]. now rewrite IH.
Qed.

Lemma tied_iff (x y : A) : tied cmp x y = true <-> le x y /\ le y x.
Proof.
  unfold tied. rewrite <- !cmp_le.
  destruct (Rle_dec (cmp x y) 0), (Rle_dec (cmp y x) 0);
    split; try tauto; try discriminate.
Qed.

Lemma le_refl (x : A) : le x x.
Proof. now destruct (le_total x x). Qed.

Lemma sorted_head_least (a : A) (t : list A) (b : A) :
  StronglySorted le (a :: t) -> In b (a :: t) -> le a b.
Proof.
  intros Hs Hin. inversion Hs as [|? ? _ Hall]; subst.
  destruct Hin as [<- | Hin]; [apply le_refl|].
  rewrite Forall_forall in Hall. now apply Hall.
Qed.

(** Two sorted arrangements of the same elements that keep tied
    elements in the same order are the same list. *)
Lemma sorted_stable_unique (l1 l2 : list A) :
  StronglySorted le l1 -> StronglySorted le l2 -> Permutation l1 l2 ->
  (forall x, filter (tied cmp x) l1 = filter (tied cmp x) l2) ->
  l1 = l2.
Proof.
  revert l2. induction l1 as [|a t1 IH]; intros l2 S1 S2 P F.
  - apply Permutation_nil in P. now subst.
  - destruct l2 as [|b t2].
    { apply Permutation_sym, Permutation_nil in P. discriminate P. }
    assert (Hab : le a b).
    { apply (sorted_head_least a t1); [assumption|].
      eapply Permutation_in; [apply Permutation_sym, P | now left]. }
    assert (Hba : le b a).
    { apply (sorted_head_least b t2); [assumption|].
      eapply Permutation_in; [apply P | now left]. }
    assert (Heq : a = b).
    { specialize (F a). cbn [filter] in F.
      assert (Haa : tied cmp a a = true) by (apply tied_iff; split; apply le_refl).
      assert (Htab : tied cmp a b = true) by (now apply tied_iff).
      rewrite Haa, Htab in F. now inversion F. }
    subst b. f_equal.
    inversion S1; inversion S2; subst.
    apply IH; try assumption.
    + eapply Permutation_cons_inv. exact P.
    + intros x. specialize (F x). cbn [filter] in F.
      destruct (tied cmp x a); [now inversion F | exact F].
Qed.

(** So the array a stable sort returns is determined: it is the one
    [sort] computes. *)
Lemma sort_unique (l l' : list A) :
  Permutation l l' -> StronglySorted le l' ->
  (forall x, filter (tied cmp x) l' = filter (tied cmp x) l) ->
  l' = sort cmp l.
Proof.
  intros P S F. apply sorted_stable_unique; try assumption.
  - apply sort_sorted.
  - eapply perm_trans; [apply Permutation_sym, P | apply sort_perm].
  - intros x. rewrite F. symmetry. apply sort_stable.
    intros a b Ha Hb. apply tied_iff in Ha, Hb. apply cmp_le.
    apply le_trans with x; tauto.
Qed.
End StableSort.

(** *** The priority map *)

Lemma position_None (c : Category) (l : list Category) :
  position c l = None <-> ~ In c l.
Proof.
  induction l as [|x l IH]; simpl.
  - tauto.
  - destruct (Category_eqb x c) eqn:E.
    + apply Category_eqb_eq in E. split; [discriminate | tauto].
    + apply Category_eqb_neq in E.
      destruct (position c l) as [n|]; simpl; split.
      * discriminate.
      * intros H. exfalso.
        assert (Hn : Some n = None) by (apply IH; tauto).
        discriminate Hn.
      * intros _ [H | H]; [congruence | now apply IH in H].
      * reflexivity.
Qed.

(** The map holds, for a category of the list, an index at which the
    list holds it, and is left as it was for the others. *)
Lemma map_of_indexed_get (m : CatMap) (i : nat) (xs : list Category) (c : Category) :
  (~ In c xs /\ map_of_indexed m i xs c = m c) \/
  (exists j, map_of_indexed m i xs c = Some (i + j)%nat /\ nth_error xs j = Some c).
Proof.
  revert m i. induction xs as [|x xs IH]; intros m i; simpl.
  - left. tauto.
  - destruct (IH (map_set m x i) (S i)) as [[Hnin Hget] | (j & Hget & Hnth)].
    + rewrite Hget. unfold map_set. destruct (Category_eqb c x) eqn:E.
      * apply Category_eqb_eq in E. subst. right. exists 0%nat.
        split; [f_equal; lia | reflexivity].
      * apply Category_eqb_neq in E. left. split; [|reflexivity].
        intros [H | H]; [congruence | contradiction].
    + right. exists (S j). split; [rewrite Hget; f_equal; lia | exact Hnth].
Qed.

Lemma map_of_indexed_nodup (m : CatMap) (i : nat) (xs : list Category) (c : Category) :
  NoDup xs ->
  map_of_indexed m i xs c =
  match position c xs with
  | Some j => Some (i + j)%nat
  | None => m c
  end.
Proof.
  revert m i. induction xs as [|x xs IH]; intros m i Hnd; simpl.
  - reflexivity.
  - inversion Hnd as [|? ? Hnin Hnd']; subst.
    rewrite IH by assumption. unfold map_set.
    destruct (Category_eqb x c) eqn:E.
    + apply Category_eqb_eq in E. subst.
      apply position_None in Hnin. rewrite Hnin, Category_eqb_refl.
      f_equal. lia.
    + destruct (position c xs); simpl; [f_equal; lia|].
      apply Category_eqb_neq in E.
      destruct (Category_eqb c x) eqn:E'; [|reflexivity].
      apply Category_eqb_eq in E'. congruence.
Qed.

Lemma priority_absent (queue : list Category) (c : Category) :
  ~ In c queue -> priority queue c = 99%nat.
Proof.
  intros Hnin. unfold priority, orderIndex, map_get.
  destruct (map_of_indexed_get map_empty 0 queue c) as [[_ ->] | (j & _ & Hnth)].
  - reflexivity.
  - exfalso. apply Hnin. eapply nth_error_In. exact Hnth.
Qed.

Lemma priority_present (queue : list Category) (c : Category) :
  In c queue -> nth_error queue (priority queue c) = Some c.
Proof.
  intros Hin. unfold priority, orderIndex, map_get.
  destruct (map_of_indexed_get map_empty 0 queue c) as [[Hnin _] | (j & -> & Hnth)].
  - contradiction.
  - exact Hnth.
Qed.

Lemma priority_position (queue : list Category) (c : Category) :
  NoDup queue -> priority queue c = nullish (position c queue) 99%nat.
Proof.
  intros Hnd. unfold priority, orderIndex, map_get.
  rewrite map_of_indexed_nodup by assumption.
  now destruct (position c queue).
Qed.

(** *** The comparator *)

Lemma finishCompare_le (queue : list Category) (a b : Drink) :
  finishCompare queue a b <= 0 <-> key_le queue a b.
Proof.
  unfold finishCompare, key_le.
  set (ia := priority queue (category a)).
  set (ib := priority queue (category b)).
  destruct (ia =? ib)%nat eqn:E; simpl.
  - apply Nat.eqb_eq in E. split.
    + intros H. right. split; [assumption | lra].
    + intros [H | [_ H]]; [lia | lra].
  - apply Nat.eqb_neq in E. split.
    + intros H. left.
      assert (Hle : (ia <= ib)%nat) by (apply INR_le; lra). lia.
    + intros [H | [H _]]; [|contradiction].
      apply lt_INR in H. lra.
Qed.

Lemma key_le_total (queue : list Category) (a b : Drink) :
  key_le queue a b \/ key_le queue b a.
Proof.
  unfold key_le.
  destruct (Nat.lt_trichotomy (priority queue (category a))
              (priority queue (category b))) as [H | [H | H]]; auto.
  destruct (Rle_or_lt (baseFinishSec a) (baseFinishSec b)).
  - left. right. auto.
  - right. right. split; [auto | lra].
Qed.

Lemma key_le_trans (queue : list Category) (a b c : Drink) :
  key_le queue a b -> key_le queue b c -> key_le queue a c.
Proof.
  unfold key_le. intros [H1 | [H1 H1']] [H2 | [H2 H2']].
  - left. lia.
  - left. lia.
  - left. lia.
  - right. split; [lia | lra].
Qed.

Lemma same_key_tie queue k f a b :
  same_key queue k f a = true -> same_key queue k f b = true ->
  finishCompare queue a b <= 0.
Proof.
  unfold same_key. intros Ha Hb.
  apply andb_true_iff in Ha, Hb. destruct Ha as [Ha Ha'], Hb as [Hb Hb'].
  apply Nat.eqb_eq in Ha, Hb. apply Req_b_eq in Ha', Hb'.
  apply finishCompare_le. right. split; [congruence | lra].
Qed.

Lemma filter_refine {A : Type} (p q : A -> bool) (l : list A) :
  (forall a, p a = true -> q a = true) ->
  filter p (filter q l) = filter p l.
Proof.
  intros Himp. induction l as [|a l IH]; simpl; [reflexivity|].
  destruct (q a) eqn:Hq; simpl.
  - now rewrite IH.
  - destruct (p a) eqn:Hp; [|assumption].
    apply Himp in Hp. congruence.
Qed.

Lemma same_class_key queue c f d :
  same_class c f d = true -> same_key queue (priority queue c) f d = true.
Proof.
  unfold same_class, same_key. intros H.
  apply andb_true_iff in H. destruct H as [Hc Hf].
  apply Category_eqb_eq in Hc. rewrite Hc, Nat.eqb_refl. exact Hf.
Qed.

(** C7: [sortByFinishQueue] returns the drinks it is given, sorted by
    the priority of their category and then by nominal finish duration
    ascending, drinks that tie on both keeping their input order, in
    particular drinks of one category and one finish duration.  The
    priority of a category is 99 when the queue does not hold it, an
    index at which the queue holds it otherwise, and its position when the
    queue has no duplicates; so in a queue of at most 99 entries the
    categories it lacks sort after those it holds. *)
Theorem sortByFinishQueue_stable (drinks : list Drink) (queue : list Category) :
  let out := sortByFinishQueue drinks queue in
  Permutation drinks out /\
  StronglySorted (key_le queue) out /\
  (forall k f, filter (same_key queue k f) out = filter (same_key queue k f) drinks) /\
  (forall c f, filter (same_class c f) out = filter (same_class c f) drinks) /\
  (forall c, ~ In c queue -> priority queue c = 99%nat) /\
  (forall c, In c queue -> nth_error queue (priority queue c) = Some c) /\
  (NoDup queue -> forall c, priority queue c = nullish (position c queue) 99%nat) /\
  ((length queue <= 99)%nat ->
   forall c c', In c queue -> ~ In c' queue ->
     (priority queue c < priority queue c')%nat).
Proof.
  cbv zeta. unfold sortByFinishQueue.
  assert (Hstable : forall k f,
    filter (same_key queue k f) (sort (finishCompare queue) drinks)
    = filter (same_key queue k f) drinks).
  { intros k f. apply sort_stable. apply same_key_tie. }
  split; [apply sort_perm|].
  split; [apply (sort_sorted _ _ (finishCompare_le queue)
                   (key_le_total queue) (key_le_trans queue))|].
  split; [exact Hstable|].
  split.
  - intros c f.
    rewrite <- (filter_refine (same_class c f) (same_key queue (priority queue c) f))
      by apply same_class_key.
    rewrite Hstable.
    apply filter_refine, same_class_key.
  - split; [apply priority_absent|].
    split; [apply priority_present|].
    split; [intros Hnd c; now apply priority_position|].
    intros Hlen c c' Hin Hnin.
    rewrite (priority_absent queue c') by assumption.
    apply priority_present in Hin.
    assert (Hlt : (priority queue c < length queue)%nat).
    { apply nth_error_Some. congruence. }
    lia.
Qed.

(** Whatever stable sort the engine runs, this is the array it returns. *)
Lemma sortByFinishQueue_determined (drinks out : list Drink) (queue : list Category) :
  Permutation drinks out ->
  StronglySorted (key_le queue) out ->
  (forall x, filter (tied (finishCompare queue) x) out
             = filter (tied (finishCompare queue) x) drinks) ->
  out = sortByFinishQueue drinks queue.
Proof.
  apply (sort_unique _ _ (finishCompare_le queue)
           (key_le_total queue) (key_le_trans queue)).
Qed.

Lemma sortByFinishQueue_stable_witness :
  ~ In STRAIGHT_UP [NON_CHILLED; ON_THE_ROCKS] /\
  priority [NON_CHILLED; ON_THE_ROCKS] STRAIGHT_UP = 99%nat /\
  In ON_THE_ROCKS [NON_CHILLED; ON_THE_ROCKS] /\
  nth_error [NON_CHILLED; ON_THE_ROCKS] (priority [NON_CHILLED; ON_THE_ROCKS] ON_THE_ROCKS)
  = Some ON_THE_ROCKS /\
  NoDup [NON_CHILLED; ON_THE_ROCKS] /\
  priority [NON_CHILLED; ON_THE_ROCKS] ON_THE_ROCKS
  = nullish (position ON_THE_ROCKS [NON_CHILLED; ON_THE_ROCKS]) 99%nat /\
  (length [NON_CHILLED; ON_THE_ROCKS] <= 99)%nat /\
  (priority [NON_CHILLED; ON_THE_ROCKS] ON_THE_ROCKS
   < priority [NON_CHILLED; ON_THE_ROCKS] STRAIGHT_UP)%nat.
Proof.
  assert (Hnin : ~ In STRAIGHT_UP [NON_CHILLED; ON_THE_ROCKS]).
  { simpl. intros [H | [H | []]]; discriminate H. }
  assert (Hin : In ON_THE_ROCKS [NON_CHILLED; ON_THE_ROCKS]).
  { simpl. right. left. reflexivity. }
  assert (Hnd : NoDup [NON_CHILLED; ON_THE_ROCKS]).
  { constructor.
    - simpl. intros [H | []]. discriminate H.
    - constructor; [simpl; tauto | constructor]. }
  assert (Hlen : (length [NON_CHILLED; ON_THE_ROCKS] <= 99)%nat).
  { cbn [length]. lia. }
  destruct (sortByFinishQueue_stable [] [NON_CHILLED; ON_THE_ROCKS])
    as (_ & _ & _ & _ & Habs & Hpres & Hpos & Hlast).
  split; [exact Hnin|]. split; [exact (Habs _ Hnin)|].
  split; [exact Hin|]. split; [exact (Hpres _ Hin)|].
  split; [exact Hnd|]. split; [exact (Hpos Hnd _)|].
  split; [exact Hlen|]. exact (Hlast Hlen _ _ Hin Hnin).
Defined.

(** *** The catalog under the recommended queue *)

Lemma sort_insert_before (queue : list Category) (x y : Drink) (l : list Drink) :
  key_le queue x y ->
  sort_insert (finishCompare queue) x (y :: l) = x :: y :: l.
Proof.
  intros H. apply finishCompare_le in H. cbn [sort_insert].
  now destruct (Rle_dec (finishCompare queue x y) 0).
Qed.

Lemma sort_insert_after (queue : list Category) (x y : Drink) (l : list Drink) :
  ~ key_le queue x y ->
  sort_insert (finishCompare queue) x (y :: l)
  = y :: sort_insert (finishCompare queue) x l.
Proof.
  intros H. rewrite <- finishCompare_le in H. cbn [sort_insert].
  now destruct (Rle_dec (finishCompare queue x y) 0).
Qed.

Lemma priority_recommended (c : Category) :
  priority recommendedOrder c = rank c.
Proof. now destruct c. Qed.

Ltac key_order :=
  unfold key_le; rewrite !priority_recommended;
  cbn [rank category baseFinishSec];
  first [ left; lia
        | right; split; [reflexivity | lra]
        | intros [H | [H H']]; first [lia | lra] ].

Ltac insert_step :=
  first [ rewrite sort_insert_before by key_order
        | rewrite sort_insert_after by key_order
        | match goal with
          | |- context [sort_insert ?c ?x []] =>
              change (sort_insert c x []) with [x]
          end ].

Example sortByFinishQueue_catalog :
  map name (sortByFinishQueue generateOrders recommendedOrder)
  = ["Beer"; "White Wine"; "Whiskey Highball"; "Gin & Tonic";
     "Old Fashioned"; "Martini"; "Manhattan"]%string.
Proof.
  unfold sortByFinishQueue, generateOrders. cbn [sort].
  repeat insert_step.
  reflexivity.
Qed.

End QueueBuilder.

(** ** The round state *)

Module Round.

Import JS GameLogic App Spec Facts.

Lemma findIndex_from_spec {A : Type} (p : A -> bool) (i : Z) (xs : list A) :
  (Forall (fun x => p x = false) xs /\ findIndex_from p i xs = (-1)%Z) \/
  (exists pre d post,
     xs = pre ++ d :: post /\
     Forall (fun x => p x = false) pre /\
     p d = true /\
     findIndex_from p i xs = (i + Z.of_nat (length pre))%Z).
Proof.
  revert i. induction xs as [|x xs IH]; intros i; simpl.
  - left. split; [constructor | reflexivity].
  - destruct (p x) eqn:Hp.
    + right. exists [], x, xs. simpl. repeat split; auto. lia.
    + destruct (IH (i + 1)%Z) as [[Hall Hidx] | (pre & d & post & -> & Hall & Hd & Hidx)].
      * left. split; [now constructor | assumption].
      * right. exists (x :: pre), d, post. simpl.
        repeat split; auto. lia.
Qed.

Lemma absent_all_differ (l : list Drink) (i : string) :
  ~ In i (map id l) <-> Forall (fun d => String.eqb (id d) i = false) l.
Proof.
  rewrite Forall_forall. split.
  - intros Hnin d Hd. apply String.eqb_neq. intros <-.
    apply Hnin. now apply in_map.
  - intros Hall Hin. apply in_map_iff in Hin. destruct Hin as (d & <- & Hd).
    apply Hall in Hd. now rewrite String.eqb_refl in Hd.
Qed.

Lemma finishById_absent (s : State) (i : string) :
  ~ In i (map id (remaining s)) -> finishById s i = [].
Proof.
  intros Hnin. apply absent_all_differ in Hnin. unfold finishById, findIndex.
  destruct (findIndex_from_spec (fun d => String.eqb (id d) i) 0 (remaining s))
    as [[_ ->] | (pre & d & post & Heq & _ & Hd & _)].
  - reflexivity.
  - exfalso. rewrite Forall_forall in Hnin.
    assert (Hin : In d (remaining s)).
    { rewrite Heq. apply in_or_app. right. now left. }
    apply Hnin in Hin. congruence.
Qed.

Lemma remove_at {A : Type} (pre post : list A) (d : A) :
  slice 0 (length pre) (pre ++ d :: post)
  ++ slice_from (length pre + 1) (pre ++ d :: post)
  = pre ++ post.
Proof.
  unfold slice, slice_from. rewrite Nat.sub_0_r. cbn [skipn].
  rewrite firstn_app, Nat.sub_diag, firstn_all. cbn [firstn].
  rewrite app_nil_r. f_equal.
  replace (length pre + 1)%nat with (length pre + 1 + 0)%nat at 1 by lia.
  rewrite skipn_app.
  replace (length pre + 1 + 0 - length pre)%nat with 1%nat by lia.
  rewrite skipn_all2 by lia. reflexivity.
Qed.

(** The setter calls of a finish action on a drink that is there. *)
Lemma finishById_found (s : State) (i : string) :
  In i (map id (remaining s)) ->
  exists pre d post tail,
    remaining s = pre ++ d :: post /\
    Forall (fun x => id x <> i) pre /\
    id d = i /\
    finishById s i =
      [setRemaining (pre ++ post);
       setTimeline
         (timeline s
          ++ [finish_record (evaluateDrink d (clock s)) (clock s)
                (clock s + baseFinishSec d)]);
       setClock (clock s + baseFinishSec d)] ++ tail /\
    (tail = [] \/ exists r, tail = [setResult r; setPhase RESULTS]).
Proof.
  intros Hin. unfold finishById, findIndex.
  destruct (findIndex_from_spec (fun d => String.eqb (id d) i) 0 (remaining s))
    as [[Hall _] | (pre & d & post & Heq & Hpre & Hd & ->)].
  - exfalso. apply absent_all_differ in Hall. contradiction.
  - exists pre, d, post. eexists.
    split; [exact Heq|]. split.
    { eapply Forall_impl; [|exact Hpre]. intros x Hx. now apply String.eqb_neq. }
    split; [now apply String.eqb_eq|].
    replace (0 + Z.of_nat (length pre) <? 0)%Z with false
      by (symmetry; apply Z.ltb_ge; lia).
    replace (Z.to_nat (0 + Z.of_nat (length pre))) with (length pre) by lia.
    rewrite Heq, nth_error_app2, Nat.sub_diag, remove_at by lia.
    cbn [nth_error]. cbv zeta.
    split; [reflexivity|].
    destruct (length (pre ++ post) =? 0)%nat; [right; eexists; reflexivity | now left].
Qed.

Lemma finish_absent (s : State) (i : string) :
  ~ In i (map id (remaining s)) -> finish s i = s.
Proof.
  intros Hnin. unfold finish. now rewrite finishById_absent.
Qed.

Lemma finish_found (s : State) (i : string) :
  In i (map id (remaining s)) ->
  exists d, id d = i /\ In d (remaining s) /\ moves_one s (finish s i) d.
Proof.
  intros Hin.
  destruct (finishById_found s i Hin)
    as (pre & d & post & tail & Heq & Hpre & Hid & Hcalls & Htail).
  exists d. split; [exact Hid|]. split.
  { rewrite Heq. apply in_or_app. right. now left. }
  exists pre, post. split; [exact Heq|]. split.
  { now rewrite Hid. }
  unfold finish. rewrite Hcalls.
  destruct Htail as [-> | [r ->]]; cbn; repeat split.
Qed.

Lemma finish_clock (s : State) (i : string) :
  nonneg_durations s ->
  clock s <= clock (finish s i) /\ nonneg_durations (finish s i).
Proof.
  intros Hnn. destruct (in_dec string_dec i (map id (remaining s))) as [Hin | Hnin].
  - destruct (finish_found s i Hin)
      as (d & _ & Hd & pre & post & Heq & _ & Hrem & _ & Hclock).
    unfold nonneg_durations in *. rewrite Hclock, Hrem.
    rewrite Heq in Hnn. apply Forall_app in Hnn. destruct Hnn as [Hpre Hpost].
    inversion Hpost as [|? ? Hd0 Hpost']; subst.
    split; [lra | apply Forall_app; now split].
  - rewrite finish_absent by assumption. split; [lra | assumption].
Qed.

Lemma finish_all_clock (ids : list string) (s : State) :
  nonneg_durations s -> clock s <= clock (finish_all s ids).
Proof.
  unfold finish_all.
  revert s. induction ids as [|i ids IH]; intros s Hnn; cbn [fold_left].
  - lra.
  - destruct (finish_clock s i Hnn) as [Hle Hnn'].
    specialize (IH (finish s i) Hnn'). lra.
Qed.

(** C8, as claimed it fails for a finish action whose id is not among
    the remaining drinks: on the catalog, finishing id 8 moves no drink. *)
Lemma finish_unknown_moves_none :
  nonneg_durations round_start /\
  ~ exists d, moves_one round_start (finish round_start "8") d.
Proof.
  split.
  - unfold nonneg_durations, round_start, generateOrders. cbn [remaining].
    repeat (apply Forall_cons; [cbn [baseFinishSec]; lra|]). apply Forall_nil.
  - intros (d & pre & post & _ & _ & _ & Htl & _).
    rewrite finish_absent in Htl.
    + apply (f_equal (@length _)) in Htl. rewrite length_app in Htl.
      simpl in Htl. lia.
    + cbn. intros H. repeat (destruct H as [H | H]; [discriminate H|]).
      exact H.
Qed.

(** C8 (amended): on a round state whose remaining drinks all have
    nonnegative finish durations, a finish action whose id is among the
    remaining drinks moves exactly one drink, the first with that id, from
    the remaining drinks to the end of the timeline and advances the clock
    by exactly that drink's finish duration; a finish action with any
    other id changes nothing; so the clock after a finish action is at
    least the clock before it, and so across any sequence of finish
    actions.  The loop of [simulateFinish] advances its clock in the same
    way, by the finish duration of the one drink it appends. *)
Theorem clock_monotone (s : State) :
  nonneg_durations s ->
  (forall i,
     (In i (map id (remaining s)) ->
      exists d, id d = i /\ In d (remaining s) /\ moves_one s (finish s i) d) /\
     (~ In i (map id (remaining s)) -> finish s i = s) /\
     clock s <= clock (finish s i)) /\
  (forall ids, clock s <= clock (finish_all s ids)) /\
  (forall st d,
     sim_clock (simulateFinish_body st d) = sim_clock st + baseFinishSec d /\
     length (sim_finished (simulateFinish_body st d))
     = S (length (sim_finished st)) /\
     (0 <= baseFinishSec d ->
      sim_clock st <= sim_clock (simulateFinish_body st d))).
Proof.
  intros Hnn. split; [|split].
  - intros i. split; [apply finish_found|]. split; [apply finish_absent|].
    now apply finish_clock.
  - intros ids. now apply finish_all_clock.
  - intros st d. rewrite Evaluation.simulateFinish_body_eq. cbn [sim_clock sim_finished].
    rewrite length_app. cbn [length]. repeat split; [lia | lra].
Qed.

Lemma clock_monotone_witness :
  nonneg_durations round_start /\
  In "3"%string (map id (remaining round_start)) /\
  (exists d, id d = "3"%string /\ In d (remaining round_start) /\
             moves_one round_start (finish round_start "3") d) /\
  clock round_start <= clock (finish_all round_start ["3"; "8"; "1"]%string).
Proof.
  assert (Hnn : nonneg_durations round_start).
  { unfold nonneg_durations, round_start, generateOrders. cbn [remaining].
    repeat (apply Forall_cons; [cbn [baseFinishSec]; lra|]). apply Forall_nil. }
  assert (Hin : In "3"%string (map id (remaining round_start))).
  { cbn. right. right. left. reflexivity. }
  destruct (clock_monotone round_start Hnn) as (Hstep & Hall & _).
  destruct (Hstep "3"%string) as (Hfound & _ & _).
  split; [exact Hnn|]. split; [exact Hin|].
  split; [exact (Hfound Hin)|]. apply Hall.
Defined.

(** C9: a finish action whose id is not among the remaining drinks does
    nothing: the handler makes no setter call, so nothing is reported, and
    the state it leaves is the state it found: clock, remaining drinks,
    timeline and result are unchanged. *)
Theorem finish_unknown_noop (s : State) (i : string) :
  ~ In i (map id (remaining s)) ->
  finishById s i = [] /\
  finish s i = s /\
  clock (finish s i) = clock s /\
  remaining (finish s i) = remaining s /\
  timeline (finish s i) = timeline s /\
  result (finish s i) = result s /\
  phase (finish s i) = phase s.
Proof.
  intros Hnin. split; [now apply finishById_absent|].
  rewrite finish_absent by assumption. repeat split.
Qed.

Lemma finish_unknown_noop_witness :
  ~ In "8"%string (map id (remaining round_start)) /\
  finishById round_start "8" = [] /\
  finish round_start "8" = round_start.
Proof.
  assert (Hnin : ~ In "8"%string (map id (remaining round_start))).
  { cbn. intros H. repeat (destruct H as [H | H]; [discriminate H|]). exact H. }
  destruct (finish_unknown_noop round_start "8" Hnin) as (Hcalls & Hsame & _).
  split; [exact Hnin|]. split; [exact Hcalls | exact Hsame].
Defined.

End Round.

(** ** More on the physical model *)

Module Thermal.

Import JS GameLogic Spec Facts.

Lemma Rmax_0_nonpos (w : R) : w <= 0 -> Rmax 0 w = 0.
Proof. intros H. unfold Rmax. destruct (Rle_dec 0 w); lra. Qed.

Lemma Rmax_0_nonneg (w : R) : 0 <= w -> Rmax 0 w = w.
Proof. intros H. unfold Rmax. destruct (Rle_dec 0 w); lra. Qed.

Lemma decay_le_1 (tau w : R) : 0 < tau -> exp (- Rmax 0 w / tau) <= 1.
Proof.
  intros Htau. rewrite <- exp_0. apply PhysicalModel.exp_monotone.
  assert (H0 : 0 <= Rmax 0 w) by apply Rmax_l.
  assert (Hinv : 0 < / tau) by now apply Rinv_0_lt_compat.
  unfold Rdiv. nra.
Qed.

Lemma tempAt_offset (w T0 ambient tau : R) :
  tempAt w T0 ambient tau - ambient
  = (T0 - ambient) * exp (- Rmax 0 w / tau).
Proof. unfold tempAt. cbv zeta. ring. Qed.

Lemma tempAt_distance (w T0 ambient tau : R) :
  Rabs (tempAt w T0 ambient tau - ambient)
  = Rabs (T0 - ambient) * exp (- Rmax 0 w / tau).
Proof.
  rewrite tempAt_offset, Rabs_mult. f_equal.
  apply Rabs_pos_eq. left. apply exp_pos.
Qed.

Lemma tempAt_clamped (w T0 ambient tau : R) :
  w <= 0 -> tempAt w T0 ambient tau = tempAt 0 T0 ambient tau.
Proof.
  intros Hw. unfold tempAt. cbv zeta.
  now rewrite (Rmax_0_nonpos w Hw), (Rmax_0_nonpos 0) by lra.
Qed.

(** X1: [tempAt] treats a negative wait as no wait: it returns what it
    returns at wait 0; with a positive time constant the temperature stays
    between that value and ambient, and its distance to ambient never grows
    with the wait, whether the drink starts below or above ambient. *)
Theorem tempAt_approach (T0 ambient tau w1 w2 : R) :
  0 < tau -> w1 <= w2 ->
  (w1 <= 0 -> tempAt w1 T0 ambient tau = tempAt 0 T0 ambient tau) /\
  Rmin (tempAt 0 T0 ambient tau) ambient
  <= tempAt w1 T0 ambient tau
  <= Rmax (tempAt 0 T0 ambient tau) ambient /\
  Rabs (tempAt w2 T0 ambient tau - ambient)
  <= Rabs (tempAt w1 T0 ambient tau - ambient) /\
  Rabs (tempAt w1 T0 ambient tau - ambient)
  <= Rabs (tempAt 0 T0 ambient tau - ambient).
Proof.
  intros Htau Hw. split; [|split; [|split]].
  - apply tempAt_clamped.
  - rewrite PhysicalModel.tempAt_start.
    pose proof (tempAt_offset w1 T0 ambient tau) as Hoff.
    pose proof (exp_pos (- Rmax 0 w1 / tau)) as Hpos.
    pose proof (decay_le_1 tau w1 Htau) as Hle.
    set (e := exp _) in *. clearbody e.
    unfold Rmin, Rmax. destruct (Rle_dec T0 ambient); split; nra.
  - rewrite !tempAt_distance.
    apply Rmult_le_compat_l; [apply Rabs_pos|].
    now apply PhysicalModel.decay_antitone.
  - rewrite PhysicalModel.tempAt_start, tempAt_distance.
    pose proof (decay_le_1 tau w1 Htau) as Hle.
    pose proof (Rabs_pos (T0 - ambient)) as Habs. nra.
Qed.

Lemma tempAt_approach_witness :
  0 < 120 /\ -30 <= 40 /\ -30 <= 0 /\
  tempAt (-30) 30 22 120 = tempAt 0 30 22 120 /\
  Rabs (tempAt 40 30 22 120 - 22) <= Rabs (tempAt (-30) 30 22 120 - 22).
Proof.
  assert (Htau : 0 < 120) by lra.
  assert (Hw : -30 <= 40) by lra.
  assert (Hneg : -30 <= 0) by lra.
  destruct (tempAt_approach 30 22 120 (-30) 40 Htau Hw) as (Hclamp & _ & Hdist & _).
  split; [exact Htau|]. split; [exact Hw|]. split; [exact Hneg|].
  split; [exact (Hclamp Hneg) | exact Hdist].
Defined.

Lemma ratio_ge_1 (T0 ambient theta : R) :
  T0 <= theta -> theta < ambient -> 1 <= (ambient - T0) / (ambient - theta).
Proof.
  intros HT Hth.
  apply Rmult_le_reg_r with (ambient - theta); [lra|].
  unfold Rdiv. rewrite Rmult_assoc, Rinv_l by lra. lra.
Qed.

Lemma crossing_nonneg (tau T0 ambient theta : R) :
  0 < tau -> T0 <= theta -> theta < ambient -> 0 <= crossing tau T0 ambient theta.
Proof.
  intros Htau HT Hth. unfold crossing.
  pose proof (ratio_ge_1 T0 ambient theta HT Hth) as Hr.
  assert (Hln : 0 <= ln ((ambient - T0) / (ambient - theta))).
  { destruct Hr as [Hlt | <-]; [|rewrite ln_1; lra].
    left. rewrite <- ln_1. apply ln_increasing; lra. }
  nra.
Qed.

(** The temperature is above [theta] exactly after the crossing time. *)
Lemma tempAt_above_iff (tau T0 ambient theta w : R) :
  0 < tau -> T0 <= theta -> theta < ambient ->
  (theta < tempAt w T0 ambient tau <-> crossing tau T0 ambient theta < w).
Proof.
  intros Htau HT Hth.
  pose proof (crossing_nonneg tau T0 ambient theta Htau HT Hth) as Hc.
  pose proof (ratio_ge_1 T0 ambient theta HT Hth) as Hr.
  unfold crossing in *. set (r := (ambient - T0) / (ambient - theta)) in *.
  assert (Hrpos : 0 < r) by lra.
  assert (Hrdef : ambient - T0 = r * (ambient - theta)).
  { unfold r, Rdiv. rewrite Rmult_assoc, Rinv_l by lra. ring. }
  assert (Hinv : 0 < / tau) by now apply Rinv_0_lt_compat.
  assert (Hkey : forall t, exp (- t / tau) * r < 1 <-> tau * ln r < t).
  { intros t. rewrite <- (exp_ln r) at 1 by assumption.
    rewrite <- exp_plus, <- exp_0. split.
    - intros H. apply exp_lt_inv in H.
      assert (Ht : ln r < t * / tau) by (unfold Rdiv in H; lra).
      apply Rmult_lt_compat_l with (r := tau) in Ht; [|assumption].
      replace (tau * (t * / tau)) with t in Ht by (field; lra). exact Ht.
    - intros H. apply exp_increasing.
      apply Rmult_lt_compat_r with (r := / tau) in H; [|assumption].
      replace (tau * ln r * / tau) with (ln r) in H by (field; lra).
      unfold Rdiv. lra. }
  assert (Htemp : theta < tempAt w T0 ambient tau
                  <-> exp (- Rmax 0 w / tau) * r < 1).
  { unfold tempAt. cbv zeta.
    pose proof (exp_pos (- Rmax 0 w / tau)) as Hpos.
    set (e := exp _) in *. clearbody e.
    replace (T0 - ambient) with (- (r * (ambient - theta))) by lra.
    split; intros H; nra. }
  rewrite Htemp, Hkey.
  destruct (Rle_dec 0 w) as [Hw | Hw].
  - now rewrite Rmax_0_nonneg.
  - rewrite Rmax_0_nonpos by lra. split; intros H; lra.
Qed.

(** *** Dilution *)

Lemma rate_of_pos (s : IceSurface) : 0 < rate_of s.
Proof. destruct s; unfold rate_of; lra. Qed.

Lemma saturation_rate (s : IceSurface) : saturation s * rate_of s = 0.6.
Proof. unfold saturation. destruct s; unfold rate_of; lra. Qed.

Lemma dilutionAt_default (w : R) (o : option IceSurface) :
  dilutionAt w o = clamp 0 0.6 (w * rate_of (nullish o standard)).
Proof.
  destruct o as [s|]; [|rewrite PhysicalModel.dilutionAt_null];
    apply PhysicalModel.dilutionAt_clamp.
Qed.

(** X3: the dilution of a class of ice is 0 for a wait of 0 or less, grows
    linearly with the wait up to the cap of 0.6, which it reaches at
    [0.6 / rate] seconds (150 s for large, 75 s for crushed ice), and
    keeps the cap from then on; it never decreases with the wait, and at
    any one wait large-format ice has diluted no more than standard ice,
    standard no more than crushed. *)
Theorem dilutionAt_profile (s : IceSurface) (w1 w2 : R) :
  (w1 <= 0 -> dilutionAt w1 (Some s) = 0) /\
  (0 <= w1 <= saturation s -> dilutionAt w1 (Some s) = w1 * rate_of s) /\
  (saturation s <= w1 -> dilutionAt w1 (Some s) = 0.6) /\
  (w1 <= w2 -> dilutionAt w1 (Some s) <= dilutionAt w2 (Some s)) /\
  dilutionAt w1 (Some large) <= dilutionAt w1 (Some standard) /\
  dilutionAt w1 (Some standard) <= dilutionAt w1 (Some crushed) /\
  saturation large = 150 /\ saturation crushed = 75.
Proof.
  pose proof (rate_of_pos s) as Hr.
  pose proof (saturation_rate s) as Hs.
  rewrite !PhysicalModel.dilutionAt_clamp.
  split; [|split; [|split; [|split; [|split; [|split; [|split]]]]]].
  - intros Hw. unfold clamp.
    destruct (Rlt_dec (w1 * rate_of s) 0), (Rlt_dec 0.6 (w1 * rate_of s)); nra.
  - intros Hw. apply clamp_id. nra.
  - intros Hw. unfold clamp.
    destruct (Rlt_dec (w1 * rate_of s) 0), (Rlt_dec 0.6 (w1 * rate_of s)); nra.
  - intros Hw. apply clamp_mono; [lra | nra].
  - unfold clamp, rate_of. repeat destruct (Rlt_dec _ _); lra.
  - unfold clamp, rate_of. repeat destruct (Rlt_dec _ _); lra.
  - unfold saturation, rate_of. lra.
  - unfold saturation, rate_of. lra.
Qed.

Lemma dilutionAt_profile_witness :
  -5 <= 0 /\ dilutionAt (-5) (Some crushed) = 0 /\
  0 <= 60 <= saturation standard /\
  dilutionAt 60 (Some standard) = 60 * rate_of standard /\
  saturation large <= 200 /\ dilutionAt 200 (Some large) = 0.6 /\
  60 <= 200 /\ dilutionAt 60 (Some standard) <= dilutionAt 200 (Some standard).
Proof.
  assert (H1 : -5 <= 0) by lra.
  assert (H2 : 0 <= 60 <= saturation standard) by (unfold saturation, rate_of; lra).
  assert (H3 : saturation large <= 200) by (unfold saturation, rate_of; lra).
  assert (H4 : 60 <= 200) by lra.
  destruct (dilutionAt_profile crushed (-5) 0) as (Hzero & _).
  destruct (dilutionAt_profile standard 60 200) as (_ & Hlin & _ & Hmono & _).
  destruct (dilutionAt_profile large 200 200) as (_ & _ & Hcap & _).
  split; [exact H1|]. split; [exact (Hzero H1)|].
  split; [exact H2|]. split; [exact (Hlin H2)|].
  split; [exact H3|]. split; [exact (Hcap H3)|].
  split; [exact H4 | exact (Hmono H4)].
Defined.

End Thermal.

(** ** More on the per-drink penalties *)

Module Penalties.

Import JS GameLogic App Spec Facts.

Lemma tempAt_le_ambient (w T0 ambient tau : R) :
  T0 <= ambient -> tempAt w T0 ambient tau <= ambient.
Proof.
  intros HT. unfold tempAt. cbv zeta.
  pose proof (exp_pos (- Rmax 0 w / tau)) as He.
  set (e := exp _) in *. clearbody e. nra.
Qed.

Lemma dilution_range (w : R) (o : option IceSurface) :
  0 <= dilutionAt w o <= 0.6.
Proof. rewrite Thermal.dilutionAt_default. apply clamp_bounds. lra. Qed.

(** A penalty list of [evaluateDrink] is empty or a singleton. *)
Ltac each_penalty :=
  first [ apply Forall_nil
        | apply Forall_cons; [cbn [value] | apply Forall_nil] ].

Lemma evaluateDrink_nonneg (d : Drink) (wait : R) :
  Forall (fun p => 0 <= value p) (ev_penalties (evaluateDrink d wait)).
Proof.
  unfold evaluateDrink.
  destruct (category d); simpl; repeat destruct (Rlt_dec _ _);
    each_penalty.
  - lra.
  - apply Rmult_le_pos; [apply Rabs_pos | lra].
  - lra.
Qed.

Lemma walk_nonneg (c : R) (l : list Drink) : nonneg_penalties (walk c l).
Proof.
  unfold nonneg_penalties.
  revert c. induction l as [|x l IH]; intros c; simpl; constructor.
  - apply evaluateDrink_nonneg.
  - apply IH.
Qed.

(** X4: no penalty [evaluateDrink] emits is negative: a warm straight-up
    penalty is positive, a lost-chill penalty exceeds 4, a dilution penalty
    is 0 or more; and so for every entry of a [simulateFinish] timeline. *)
Theorem penalties_nonneg (d : Drink) (wait : R) (l : list Drink) :
  let e := evaluateDrink d wait in
  Forall (fun p => 0 <= value p) (ev_penalties e) /\
  match category d with
  | STRAIGHT_UP => Forall (fun p => 0 < value p) (ev_penalties e)
  | ON_THE_ROCKS => True
  | NON_CHILLED => Forall (fun p => 4 < value p) (ev_penalties e)
  end /\
  nonneg_penalties (finished (simulateFinish l)).
Proof.
  cbv zeta. split; [apply evaluateDrink_nonneg|]. split.
  - unfold evaluateDrink.
    destruct (category d); simpl; repeat destruct (Rlt_dec _ _);
      try exact I; each_penalty; lra.
  - rewrite Evaluation.simulateFinish_finished. apply walk_nonneg.
Qed.

(** X5: no penalty exceeds what the code charges at the extreme of its
    quantity.  For a drink that starts no warmer than the room (22 degrees)
    a warm straight-up penalty is at most [(22 / 10) * 12] and a lost-chill
    penalty at most [(22 - 10) * 2], the penalties at room temperature; for
    a drink on the rocks whose ideal dilution lies in [[0, 0.6]] the
    dilution penalty is at most [0.6 * 80]. *)
Theorem penalties_bounded (d : Drink) (wait : R) :
  let e := evaluateDrink d wait in
  match category d with
  | STRAIGHT_UP =>
      startTempC d <= 22 ->
      ev_tempC e <= 22 /\
      Forall (fun p => value p <= 22 / 10 * 12) (ev_penalties e)
  | ON_THE_ROCKS =>
      0 <= nullish (idealDilution d) 0.33 <= 0.6 ->
      Forall (fun p => value p <= 0.6 * 80) (ev_penalties e)
  | NON_CHILLED =>
      startTempC d <= 22 ->
      ev_tempC e <= 22 /\
      Forall (fun p => value p <= (22 - 10) * 2) (ev_penalties e)
  end.
Proof.
  cbv zeta. unfold evaluateDrink.
  destruct (category d); simpl; intros Hyp.
  - pose proof (tempAt_le_ambient wait (startTempC d) 22 120 Hyp) as Hle.
    split; [exact Hle|].
    destruct (Rlt_dec _ _); each_penalty. lra.
  - pose proof (dilution_range wait (Some (nullish (iceSurface d) standard))) as Hd.
    each_penalty.
    assert (Habs : Rabs (dilutionAt wait (Some (nullish (iceSurface d) standard))
                         - nullish (idealDilution d) 0.33) <= 0.6).
    { apply Rabs_le. lra. }
    lra.
  - pose proof (tempAt_le_ambient wait (startTempC d) 22 240 Hyp) as Hle.
    split; [exact Hle|].
    destruct (Rlt_dec _ _); each_penalty. lra.
Qed.

Lemma penalties_bounded_witness :
  let martini := mkDrink "1" "Martini" STRAIGHT_UP 12 (-4) None None in
  startTempC martini <= 22 /\
  Forall (fun p => value p <= 22 / 10 * 12)
    (ev_penalties (evaluateDrink martini 300)).
Proof.
  cbv zeta.
  assert (H : startTempC (mkDrink "1" "Martini" STRAIGHT_UP 12 (-4) None None) <= 22).
  { cbn [startTempC]. lra. }
  split; [exact H|].
  exact (proj2 (penalties_bounded
                  (mkDrink "1" "Martini" STRAIGHT_UP 12 (-4) None None) 300 H)).
Defined.

(** X6: a straight-up drink that starts at 0 degrees or colder is
    penalized exactly when it has waited longer than
    [120 * ln ((22 - startTemp) / 22)] seconds, and a non-chilled drink that
    starts at 12 degrees or colder exactly when it has waited longer than
    [240 * ln ((22 - startTemp) / 10)] seconds. *)
Theorem penalty_onset (d : Drink) (wait : R) :
  let e := evaluateDrink d wait in
  match category d with
  | STRAIGHT_UP =>
      startTempC d <= 0 ->
      (ev_penalties e <> [] <-> 120 * ln ((22 - startTempC d) / 22) < wait)
  | ON_THE_ROCKS => ev_penalties e <> []
  | NON_CHILLED =>
      startTempC d <= 12 ->
      (ev_penalties e <> [] <-> 240 * ln ((22 - startTempC d) / 10) < wait)
  end.
Proof.
  cbv zeta. unfold evaluateDrink.
  destruct (category d); simpl.
  - intros HT.
    assert (Hiff := Thermal.tempAt_above_iff 120 (startTempC d) 22 0 wait).
    unfold crossing in Hiff. replace (22 - 0) with 22 in Hiff by lra.
    rewrite <- Hiff by lra.
    destruct (Rlt_dec _ _); split; intros H; try assumption;
      try discriminate; try contradiction.
  - discriminate.
  - intros HT.
    assert (Hiff := Thermal.tempAt_above_iff 240 (startTempC d) 22 12 wait).
    unfold crossing in Hiff. replace (22 - 12) with 10 in Hiff by lra.
    rewrite <- Hiff by lra.
    destruct (Rlt_dec _ _); split; intros H; try assumption;
      try discriminate; try contradiction.
Qed.

Lemma penalty_onset_witness :
  let beer := mkDrink "6" "Beer" NON_CHILLED 5 6 None None in
  startTempC beer <= 12 /\
  (ev_penalties (evaluateDrink beer 0) <> []
   <-> 240 * ln ((22 - startTempC beer) / 10) < 0).
Proof.
  cbv zeta.
  assert (H : startTempC (mkDrink "6" "Beer" NON_CHILLED 5 6 None None) <= 12).
  { cbn [startTempC]. lra. }
  split; [exact H|].
  exact (penalty_onset (mkDrink "6" "Beer" NON_CHILLED 5 6 None None) 0 H).
Defined.

Lemma dilutionAt_mono (w1 w2 : R) (o : option IceSurface) :
  w1 <= w2 -> dilutionAt w1 o <= dilutionAt w2 o.
Proof.
  intros Hw. rewrite !Thermal.dilutionAt_default.
  pose proof (Thermal.rate_of_pos (nullish o standard)) as Hr.
  apply clamp_mono; [lra | nra].
Qed.

(** X7: the one penalty of a drink on the rocks, [|dilution - ideal| * 80],
    is 0 exactly when the dilution the code computes equals the ideal
    dilution; while the dilution has not passed the ideal, waiting longer
    never costs more, and once it has reached the ideal, waiting longer
    never costs less. *)
Theorem dilution_penalty_shape (d : Drink) (w1 w2 : R) :
  category d = ON_THE_ROCKS ->
  let ideal := nullish (idealDilution d) 0.33 in
  let dil w := dilutionAt w (Some (nullish (iceSurface d) standard)) in
  let cost w := Rabs (dil w - ideal) * 80 in
  ev_penalties (evaluateDrink d w1) = [mkPenalty label_dilution (cost w1)] /\
  ev_penalties (evaluateDrink d w2) = [mkPenalty label_dilution (cost w2)] /\
  (cost w1 = 0 <-> dil w1 = ideal) /\
  (w1 <= w2 -> dil w2 <= ideal -> cost w2 <= cost w1) /\
  (w1 <= w2 -> ideal <= dil w1 -> cost w1 <= cost w2).
Proof.
  intros Hcat. cbv beta zeta.
  set (ideal := nullish (idealDilution d) 0.33).
  set (o := Some (nullish (iceSurface d) standard)).
  split; [unfold evaluateDrink; rewrite Hcat; reflexivity|].
  split; [unfold evaluateDrink; rewrite Hcat; reflexivity|].
  split; [|split].
  - unfold Rabs. destruct (Rcase_abs (dilutionAt w1 o - ideal)); split; intros; lra.
  - intros Hw Hle. pose proof (dilutionAt_mono w1 w2 o Hw) as Hm.
    rewrite !Rabs_left1 by lra. lra.
  - intros Hw Hle. pose proof (dilutionAt_mono w1 w2 o Hw) as Hm.
    rewrite !Rabs_pos_eq by lra. lra.
Qed.

Lemma dilution_penalty_shape_witness :
  let highball :=
    mkDrink "4" "Whiskey Highball" ON_THE_ROCKS 8 0 (Some 0.33) (Some standard) in
  category highball = ON_THE_ROCKS /\ 10 <= 20 /\
  dilutionAt 20 (Some standard) <= 0.33 /\
  Rabs (dilutionAt 20 (Some standard) - 0.33) * 80
  <= Rabs (dilutionAt 10 (Some standard) - 0.33) * 80.
Proof.
  cbv zeta.
  set (highball :=
    mkDrink "4" "Whiskey Highball" ON_THE_ROCKS 8 0 (Some 0.33) (Some standard)).
  assert (Hc : category highball = ON_THE_ROCKS) by reflexivity.
  assert (Hw : 10 <= 20) by lra.
  assert (Hd : dilutionAt 20 (Some standard) <= 0.33).
  { rewrite PhysicalModel.dilutionAt_clamp. unfold clamp, rate_of.
    repeat destruct (Rlt_dec _ _); lra. }
  destruct (dilution_penalty_shape highball 10 20 Hc) as (_ & _ & _ & Hdown & _).
  split; [exact Hc|]. split; [exact Hw|]. split; [exact Hd|].
  exact (Hdown Hw Hd).
Defined.

End Penalties.

(** ** More on the round score *)

Module ScoreBounds.

Import JS GameLogic App Spec Facts.

Lemma window_cost_nonneg (w : R) : 0 <= sum_values (window_entry w).
Proof.
  unfold window_entry. destruct (Rlt_dec 60 w); simpl; lra.
Qed.

Lemma window_cost_zero (w : R) : sum_values (window_entry w) = 0 <-> w <= 60.
Proof.
  unfold window_entry. destruct (Rlt_dec 60 w); simpl; split; intros H; lra.
Qed.

Lemma window_cost_mono (w1 w2 : R) :
  w1 <= w2 -> sum_values (window_entry w1) <= sum_values (window_entry w2).
Proof.
  intros Hw. unfold window_entry.
  destruct (Rlt_dec 60 w1), (Rlt_dec 60 w2); simpl; lra.
Qed.

Lemma sum_values_nonneg (ps : list Penalty) :
  Forall (fun p => 0 <= value p) ps -> 0 <= sum_values ps.
Proof.
  induction 1 as [|p ps Hp _ IH]; simpl; lra.
Qed.

Lemma sum_values_zero (ps : list Penalty) :
  Forall (fun p => 0 <= value p) ps ->
  (sum_values ps = 0 <-> Forall (fun p => value p = 0) ps).
Proof.
  induction 1 as [|p ps Hp Hps IH]; simpl.
  - split; [constructor | reflexivity].
  - pose proof (sum_values_nonneg ps Hps) as Hs. split.
    + intros H. constructor; [lra | apply IH; lra].
    + intros H. inversion H as [|? ? H0 Hrest]; subst.
      apply IH in Hrest. lra.
Qed.

Lemma total_nonneg (fs : list FinishedDrink) :
  nonneg_penalties fs -> 0 <= drink_penalty_total fs.
Proof.
  induction 1 as [|f fs Hf _ IH]; simpl.
  - lra.
  - pose proof (sum_values_nonneg _ Hf). lra.
Qed.

Lemma total_zero (fs : list FinishedDrink) :
  nonneg_penalties fs -> (drink_penalty_total fs = 0 <-> no_penalty_cost fs).
Proof.
  unfold no_penalty_cost.
  induction 1 as [|f fs Hf Hfs IH]; simpl.
  - split; [constructor | reflexivity].
  - pose proof (sum_values_nonneg _ Hf) as H1.
    pose proof (total_nonneg fs Hfs) as H2. split.
    + intros H. constructor.
      * apply sum_values_zero; [assumption | lra].
      * apply IH. lra.
    + intros H. inversion H as [|? ? H0 Hrest]; subst.
      apply IH in Hrest. apply sum_values_zero in H0; [lra | assumption].
Qed.

Lemma total_perm (fs fs' : list FinishedDrink) :
  Permutation fs fs' -> drink_penalty_total fs = drink_penalty_total fs'.
Proof.
  induction 1; simpl; lra.
Qed.

Lemma score_eq finished w chosen :
  score (scoreRound finished w chosen)
  = clamp 0 100 (rawScore finished w chosen).
Proof.
  unfold scoreRound, rawScore. cbn [score]. apply Rmax_Rmin_clamp. lra.
Qed.

Lemma sum_values_ge (ps : list Penalty) (p : Penalty) :
  Forall (fun x => 0 <= value x) ps -> In p ps -> value p <= sum_values ps.
Proof.
  induction 1 as [|x ps Hx Hps IH]; intros Hin; [contradiction|].
  simpl. pose proof (sum_values_nonneg ps Hps) as Hs.
  destruct Hin as [-> | Hin]; [lra | specialize (IH Hin); lra].
Qed.

Lemma total_ge (fs : list FinishedDrink) (f : FinishedDrink) (p : Penalty) :
  nonneg_penalties fs -> In f fs -> In p (penalties f) ->
  value p <= drink_penalty_total fs.
Proof.
  induction 1 as [|x fs Hx Hfs IH]; intros Hf Hp; [contradiction|].
  simpl. pose proof (sum_values_nonneg _ Hx) as H1.
  pose proof (total_nonneg fs Hfs) as H2.
  destruct Hf as [-> | Hf].
  - pose proof (sum_values_ge _ p Hx Hp). lra.
  - specialize (IH Hf Hp). lra.
Qed.

Lemma clamp_Rmax_le (x y : R) : x <= y -> clamp 0 100 x <= Rmax 0 y.
Proof.
  intros Hxy. unfold clamp, Rmax.
  destruct (Rlt_dec x 0), (Rlt_dec 100 x), (Rle_dec 0 y); lra.
Qed.

(** X8: when no penalty of the timeline is negative, as in every timeline
    the engine builds, the deductions only lower the score: the raw score
    never exceeds 100, so only the lower clamp can act; a window of at most
    60 s, a queue in the recommended order and penalties that all are 0
    give 100; a queue out of the recommended order gives at most 94, a
    window above 60 s at most [100 - (window - 60) * 0.2], and a penalty of
    a finished drink at most 100 less that penalty. *)
Theorem score_ceiling finished w chosen :
  nonneg_penalties finished ->
  let sc := score (scoreRound finished w chosen) in
  rawScore finished w chosen <= 100 /\
  sc = Rmax 0 (rawScore finished w chosen) /\
  (w <= 60 -> in_recommended_order chosen -> no_penalty_cost finished ->
   sc = 100) /\
  (~ in_recommended_order chosen -> sc <= 94) /\
  (60 < w -> sc <= Rmax 0 (100 - (w - 60) * 0.2)) /\
  (forall f p, In f finished -> In p (penalties f) ->
     sc <= Rmax 0 (100 - value p)).
Proof.
  intros Hnn. cbv zeta.
  pose proof (window_cost_nonneg w) as Hw.
  pose proof (pos_INR (6 * inversions chosen)) as Ho.
  pose proof (total_nonneg finished Hnn) as Ht.
  assert (Hraw : rawScore finished w chosen <= 100).
  { rewrite Scoring.rawScore_eq. lra. }
  split; [exact Hraw|]. rewrite score_eq. split; [|split; [|split; [|split]]].
  - unfold clamp, Rmax.
    destruct (Rlt_dec (rawScore finished w chosen) 0),
      (Rlt_dec 100 (rawScore finished w chosen)),
      (Rle_dec 0 (rawScore finished w chosen)); lra.
  - intros H1 H2 H3.
    apply window_cost_zero in H1. apply Scoring.inversions_zero_iff in H2.
    apply (total_zero finished Hnn) in H3.
    rewrite Scoring.rawScore_eq, H1, H2, H3. simpl.
    rewrite clamp_id by lra. lra.
  - intros Hns.
    assert (Hinv : (1 <= inversions chosen)%nat).
    { destruct (inversions chosen) eqn:E; [|lia].
      exfalso. apply Hns. now apply Scoring.inversions_zero_iff. }
    assert (H6 : 6 <= INR (6 * inversions chosen)).
    { replace 6 with (INR 6) by (simpl; lra). apply le_INR. lia. }
    replace 94 with (Rmax 0 94) by (unfold Rmax; destruct (Rle_dec 0 94); lra).
    apply clamp_Rmax_le. rewrite Scoring.rawScore_eq. lra.
  - intros H60. apply clamp_Rmax_le. rewrite Scoring.rawScore_eq.
    unfold window_entry in *. destruct (Rlt_dec 60 w); [|contradiction].
    simpl in *. lra.
  - intros f p Hf Hp. apply clamp_Rmax_le. rewrite Scoring.rawScore_eq.
    pose proof (total_ge finished f p Hnn Hf Hp). lra.
Qed.

Lemma score_ceiling_witness :
  let f := mkFinished
             (mkDrink "4" "Whiskey Highball" ON_THE_ROCKS 8 0 (Some 0.33)
                (Some standard))
             8 0 0 (Some 0) [mkPenalty label_dilution 26.4] in
  nonneg_penalties [f] /\
  ~ in_recommended_order [STRAIGHT_UP; NON_CHILLED] /\
  60 < 90 /\
  score (scoreRound [f] 90 [STRAIGHT_UP; NON_CHILLED]) <= 94 /\
  score (scoreRound [f] 90 [STRAIGHT_UP; NON_CHILLED])
  <= Rmax 0 (100 - (90 - 60) * 0.2) /\
  score (scoreRound [f] 90 [STRAIGHT_UP; NON_CHILLED])
  <= Rmax 0 (100 - 26.4).
Proof.
  cbv zeta.
  set (f := mkFinished
              (mkDrink "4" "Whiskey Highball" ON_THE_ROCKS 8 0 (Some 0.33)
                 (Some standard))
              8 0 0 (Some 0) [mkPenalty label_dilution 26.4]).
  assert (Hnn : nonneg_penalties [f]).
  { constructor; [|constructor]. constructor; [cbn; lra | constructor]. }
  assert (Hns : ~ in_recommended_order [STRAIGHT_UP; NON_CHILLED]).
  { intros H. inversion H as [|? ? _ Hall]; subst.
    inversion Hall as [|? ? Hle _]; subst. simpl in Hle. lia. }
  assert (Hw : 60 < 90) by lra.
  destruct (score_ceiling [f] 90 [STRAIGHT_UP; NON_CHILLED] Hnn)
    as (_ & _ & _ & Hord & Hwin & Hpen).
  split; [exact Hnn|]. split; [exact Hns|]. split; [exact Hw|].
  split; [exact (Hord Hns)|]. split; [exact (Hwin Hw)|].
  apply (Hpen f (mkPenalty label_dilution 26.4)); now left.
Defined.

(** X9: a longer window never gives a higher score, and a further
    finished drink whose penalties are not negative never raises it. *)
Theorem score_monotone finished w w' chosen f :
  (w <= w' ->
   score (scoreRound finished w' chosen) <= score (scoreRound finished w chosen)) /\
  (Forall (fun p => 0 <= value p) (penalties f) ->
   score (scoreRound (finished ++ [f]) w chosen)
   <= score (scoreRound finished w chosen)).
Proof.
  split.
  - intros Hw. rewrite !score_eq. apply clamp_mono; [lra|].
    rewrite !Scoring.rawScore_eq.
    pose proof (window_cost_mono w w' Hw). lra.
  - intros Hf. rewrite !score_eq. apply clamp_mono; [lra|].
    rewrite !Scoring.rawScore_eq.
    rewrite (total_perm (finished ++ [f]) (f :: finished))
      by (apply Permutation_sym, Permutation_cons_append).
    simpl. pose proof (sum_values_nonneg _ Hf). lra.
Qed.

Lemma score_monotone_witness :
  let g := mkFinished (mkDrink "6" "Beer" NON_CHILLED 5 6 None None) 5 0 6 None [] in
  let f := mkFinished
             (mkDrink "4" "Whiskey Highball" ON_THE_ROCKS 8 0 (Some 0.33)
                (Some standard))
             13 5 0 (Some 0.0275) [mkPenalty label_dilution 24.2] in
  60 <= 90 /\
  Forall (fun p => 0 <= value p) (penalties f) /\
  score (scoreRound [g] 90 recommendedOrder)
  <= score (scoreRound [g] 60 recommendedOrder) /\
  score (scoreRound ([g] ++ [f]) 60 recommendedOrder)
  <= score (scoreRound [g] 60 recommendedOrder).
Proof.
  cbv zeta.
  set (g := mkFinished (mkDrink "6" "Beer" NON_CHILLED 5 6 None None) 5 0 6 None []).
  set (f := mkFinished
              (mkDrink "4" "Whiskey Highball" ON_THE_ROCKS 8 0 (Some 0.33)
                 (Some standard))
              13 5 0 (Some 0.0275) [mkPenalty label_dilution 24.2]).
  assert (Hw : 60 <= 90) by lra.
  assert (Hf : Forall (fun p => 0 <= value p) (penalties f)).
  { constructor; [cbn; lra | constructor]. }
  destruct (score_monotone [g] 60 90 recommendedOrder f) as (H1 & H2).
  split; [exact Hw|]. split; [exact Hf|].
  split; [exact (H1 Hw) | exact (H2 Hf)].
Defined.

(** *** The ordering penalty for any recommended order *)

Lemma ordered_pairs_length {A : Type} (l : list A) :
  (2 * length (ordered_pairs l) = length l * (length l - 1))%nat.
Proof.
  induction l as [|x l IH]; simpl; [reflexivity|].
  rewrite length_app, length_map, Nat.sub_0_r.
  destruct l as [|y l]; simpl in *; [reflexivity|].
  rewrite Nat.sub_0_r in IH. nia.
Qed.

Lemma filter_length_le {A : Type} (f : A -> bool) (l : list A) :
  (length (filter f l) <= length l)%nat.
Proof.
  induction l as [|a l IH]; simpl; [lia|]. destruct (f a); simpl; lia.
Qed.

Lemma inversions_by_const (rk : Category -> nat) (l : list Category) :
  (forall a b, rk a = rk b) -> inversions_by rk l = 0%nat.
Proof.
  intros Hc. unfold inversions_by. apply Scoring.filter_none.
  apply Forall_forall. intros [a b] _. simpl.
  rewrite (Hc b a). apply Nat.ltb_irrefl.
Qed.

(** X10: for any recommended order, [orderPenalty] is 6 times the number
    of pairs of the chosen queue whose places in the recommended order are
    reversed, a category the recommended order lacks counting as its first;
    it is at most [3 * n * (n - 1)] for a queue of [n] entries, 18 for
    three, and 0 for a queue of one entry or none and for an empty
    recommended order. *)
Theorem orderPenalty_bound (reco chosen : list Category) :
  orderPenalty reco chosen
  = (6 * inversions_by (rankOf (posOf reco)) chosen)%nat /\
  (orderPenalty reco chosen <= 3 * (length chosen * (length chosen - 1)))%nat /\
  ((length chosen <= 1)%nat -> orderPenalty reco chosen = 0%nat) /\
  orderPenalty [] chosen = 0%nat.
Proof.
  assert (Heq : forall r, orderPenalty r chosen
                = (6 * inversions_by (rankOf (posOf r)) chosen)%nat).
  { intros r. unfold orderPenalty.
    rewrite Scoring.inversionsOf_inversions_by. lia. }
  assert (Hle : forall r, (orderPenalty r chosen
                <= 3 * (length chosen * (length chosen - 1)))%nat).
  { intros r. rewrite Heq. unfold inversions_by.
    pose proof (filter_length_le
      (fun ab => (rankOf (posOf r) (snd ab) <? rankOf (posOf r) (fst ab))%nat)
      (ordered_pairs chosen)) as Hf.
    pose proof (ordered_pairs_length chosen) as Hp. lia. }
  split; [apply Heq|]. split; [apply Hle|]. split.
  - intros Hn. specialize (Hle reco).
    destruct chosen as [|x [|y l]]; simpl in *; lia.
  - rewrite Heq, inversions_by_const; [reflexivity|].
    intros a b. reflexivity.
Qed.

Lemma orderPenalty_bound_witness :
  (length [ON_THE_ROCKS] <= 1)%nat /\
  orderPenalty recommendedOrder [ON_THE_ROCKS] = 0%nat.
Proof.
  assert (Hn : (length [ON_THE_ROCKS] <= 1)%nat) by (cbn [length]; lia).
  destruct (orderPenalty_bound recommendedOrder [ON_THE_ROCKS]) as (_ & _ & H1 & _).
  split; [exact Hn | exact (H1 Hn)].
Defined.

End ScoreBounds.

(** ** The category queue of the setup screen *)

Module QueueSetup.

Import JS GameLogic App Spec Facts.

Lemma includes_In (c : Category) (q : list Category) :
  includes c q = true <-> In c q.
Proof.
  unfold includes. rewrite existsb_exists. split.
  - intros (x & Hin & Heq). apply Category_eqb_eq in Heq. now subst.
  - intros Hin. exists c. split; [assumption | apply Category_eqb_refl].
Qed.

Lemma includes_not_In (c : Category) (q : list Category) :
  includes c q = false <-> ~ In c q.
Proof.
  rewrite <- includes_In. destruct (includes c q); split; congruence.
Qed.

Lemma drop_absent (c : Category) (q : list Category) :
  ~ In c q -> filter (fun x => negb (Category_eqb x c)) q = q.
Proof.
  induction q as [|x q IH]; simpl; intros Hnin; [reflexivity|].
  destruct (Category_eqb x c) eqn:E; simpl.
  - apply Category_eqb_eq in E. tauto.
  - f_equal. apply IH. tauto.
Qed.

Lemma drop_In (c x : Category) (q : list Category) :
  In x (filter (fun y => negb (Category_eqb y c)) q) <-> In x q /\ x <> c.
Proof.
  rewrite filter_In, negb_true_iff, Category_eqb_neq. tauto.
Qed.

Lemma drop_length (c : Category) (q : list Category) :
  NoDup q -> In c q ->
  S (length (filter (fun x => negb (Category_eqb x c)) q)) = length q.
Proof.
  induction q as [|x q IH]; simpl; intros Hnd Hin; [contradiction|].
  inversion Hnd as [|? ? Hx Hq]; subst.
  destruct (Category_eqb x c) eqn:E; simpl.
  - apply Category_eqb_eq in E. subst. now rewrite drop_absent.
  - apply Category_eqb_neq in E. f_equal. apply IH; [assumption|].
    destruct Hin; [contradiction | assumption].
Qed.

Lemma toggle_ok (q : list Category) (c : Category) :
  queue_ok q -> queue_ok (toggle q c).
Proof.
  intros [Hnd Hlen]. unfold toggle, queue_ok.
  destruct (includes c q) eqn:Hinc.
  - split; [now apply NoDup_filter|].
    pose proof (ScoreBounds.filter_length_le
                  (fun x => negb (Category_eqb x c)) q). lia.
  - destruct (3 <=? length q)%nat eqn:Hfull; [now split|].
    apply Nat.leb_gt in Hfull. apply includes_not_In in Hinc. split.
    + apply NoDup_rev in Hnd. rewrite <- (rev_involutive (q ++ [c])).
      apply NoDup_rev. rewrite rev_app_distr. simpl.
      constructor; [now rewrite <- in_rev | assumption].
    + rewrite length_app. simpl. lia.
Qed.

Lemma toggle_all_ok (cats q : list Category) :
  queue_ok q -> queue_ok (toggle_all q cats).
Proof.
  unfold toggle_all. revert q.
  induction cats as [|c cats IH]; intros q Hq; simpl; [assumption|].
  apply IH. now apply toggle_ok.
Qed.

(** X11: clicking category tags keeps the queue free of duplicates and at
    most three entries long: one click keeps a queue that is so so, hence
    any sequence of clicks does, and every queue reached by clicks from the
    empty queue of a fresh or reset screen is so. *)
Theorem queue_invariant (s : State) (c : Category) (cats : list Category) :
  (queue_ok (queue s) -> queue_ok (queue (commit s (toggleCategory s c)))) /\
  (queue_ok (queue s) -> queue_ok (toggle_all (queue s) cats)) /\
  queue (commit s (resetAll s)) = [] /\
  queue_ok (toggle_all (queue (commit s (resetAll s))) cats).
Proof.
  assert (Hempty : queue_ok []) by (split; [constructor | simpl; lia]).
  split; [|split; [|split]].
  - intros Hq. cbn. now apply toggle_ok.
  - apply toggle_all_ok.
  - reflexivity.
  - cbn [commit resetAll fold_left apply_setter queue]. now apply toggle_all_ok.
Qed.

Lemma queue_invariant_witness :
  queue_ok (queue initial) /\
  queue_ok (queue (commit initial (toggleCategory initial ON_THE_ROCKS))) /\
  queue_ok (toggle_all (queue initial) [ON_THE_ROCKS; ON_THE_ROCKS; NON_CHILLED]).
Proof.
  assert (H0 : queue_ok (queue initial)).
  { split; [constructor | cbn; lia]. }
  destruct (queue_invariant initial ON_THE_ROCKS
              [ON_THE_ROCKS; ON_THE_ROCKS; NON_CHILLED]) as (H1 & H2 & _).
  split; [exact H0|]. split; [exact (H1 H0) | exact (H2 H0)].
Defined.

Lemma toggle_present (q : list Category) (c : Category) :
  In c q -> toggle q c = filter (fun x => negb (Category_eqb x c)) q.
Proof.
  intros Hin. unfold toggle. apply includes_In in Hin. now rewrite Hin.
Qed.

Lemma toggle_absent_room (q : list Category) (c : Category) :
  ~ In c q -> (length q < 3)%nat -> toggle q c = q ++ [c].
Proof.
  intros Hnin Hlen. unfold toggle. apply includes_not_In in Hnin. rewrite Hnin.
  now replace (3 <=? length q)%nat with false by (symmetry; apply Nat.leb_gt; lia).
Qed.

Lemma toggle_absent_full (q : list Category) (c : Category) :
  ~ In c q -> (3 <= length q)%nat -> toggle q c = q.
Proof.
  intros Hnin Hlen. unfold toggle. apply includes_not_In in Hnin. rewrite Hnin.
  now replace (3 <=? length q)%nat with true by (symmetry; apply Nat.leb_le; lia).
Qed.

(** X12: a click on a category of the queue removes it and leaves the
    others in their order; one on a category the queue lacks appends it
    when the queue has fewer than three entries and does nothing when it
    has three or more; so a second click on a category just appended
    restores the queue. *)
Theorem toggle_spec (q : list Category) (c : Category) :
  (In c q ->
   toggle q c = filter (fun x => negb (Category_eqb x c)) q /\
   ~ In c (toggle q c) /\
   (forall x, x <> c -> (In x (toggle q c) <-> In x q)) /\
   (NoDup q -> S (length (toggle q c)) = length q)) /\
  (~ In c q -> (length q < 3)%nat ->
   toggle q c = q ++ [c] /\ toggle (toggle q c) c = q) /\
  (~ In c q -> (3 <= length q)%nat -> toggle q c = q).
Proof.
  split; [|split].
  - intros Hin. rewrite toggle_present by assumption.
    split; [reflexivity|]. split; [|split].
    + rewrite drop_In. tauto.
    + intros x Hx. rewrite drop_In. tauto.
    + intros Hnd. now apply drop_length.
  - intros Hnin Hlen. rewrite toggle_absent_room by assumption.
    split; [reflexivity|].
    rewrite toggle_present by (apply in_or_app; right; now left).
    rewrite filter_app, drop_absent by assumption.
    simpl. rewrite Category_eqb_refl. simpl. apply app_nil_r.
  - intros Hnin Hlen. now apply toggle_absent_full.
Qed.

Lemma toggle_spec_witness :
  In ON_THE_ROCKS [NON_CHILLED; ON_THE_ROCKS] /\
  ~ In ON_THE_ROCKS (toggle [NON_CHILLED; ON_THE_ROCKS] ON_THE_ROCKS) /\
  ~ In STRAIGHT_UP [NON_CHILLED; ON_THE_ROCKS] /\
  (length [NON_CHILLED; ON_THE_ROCKS] < 3)%nat /\
  toggle (toggle [NON_CHILLED; ON_THE_ROCKS] STRAIGHT_UP) STRAIGHT_UP
  = [NON_CHILLED; ON_THE_ROCKS].
Proof.
  assert (Hin : In ON_THE_ROCKS [NON_CHILLED; ON_THE_ROCKS]).
  { simpl. right. left. reflexivity. }
  assert (Hnin : ~ In STRAIGHT_UP [NON_CHILLED; ON_THE_ROCKS]).
  { simpl. intros [H | [H | []]]; discriminate H. }
  assert (Hlen : (length [NON_CHILLED; ON_THE_ROCKS] < 3)%nat) by (cbn [length]; lia).
  destruct (toggle_spec [NON_CHILLED; ON_THE_ROCKS] ON_THE_ROCKS) as (Hrem & _ & _).
  destruct (toggle_spec [NON_CHILLED; ON_THE_ROCKS] STRAIGHT_UP) as (_ & Hadd & _).
  destruct (Hrem Hin) as (_ & Hgone & _).
  destruct (Hadd Hnin Hlen) as (_ & Hback).
  split; [exact Hin|]. split; [exact Hgone|]. split; [exact Hnin|].
  split; [exact Hlen | exact Hback].
Defined.

Lemma full_queue_all (q : list Category) (c : Category) :
  NoDup q -> length q = 3%nat -> In c q.
Proof.
  intros Hnd Hlen.
  apply (NoDup_length_incl Hnd (l' := recommendedOrder)).
  - rewrite Hlen. cbn. lia.
  - intros x _. destruct x; cbn; tauto.
  - destruct c; cbn; tauto.
Qed.

(** X13: when the round can start on a queue without duplicates, the
    queue holds each of the three categories, so it is an arrangement of
    the recommended order, no category gets the fallback priority 99, and
    the priority of each category is its position in the queue; a click on
    any category then takes it out again. *)
Theorem canStart_complete (s : State) (c : Category) :
  NoDup (queue s) -> canStart s = true ->
  In c (queue s) /\
  Permutation (queue s) recommendedOrder /\
  (priority (queue s) c < 3)%nat /\
  nth_error (queue s) (priority (queue s) c) = Some c /\
  priority (queue s) c = nullish (position c (queue s)) 99%nat /\
  length (toggle (queue s) c) = 2%nat.
Proof.
  intros Hnd Hcan. unfold canStart in Hcan. apply Nat.eqb_eq in Hcan.
  assert (Hall : forall x, In x (queue s)).
  { intros x. now apply full_queue_all. }
  assert (Hnth : nth_error (queue s) (priority (queue s) c) = Some c).
  { apply QueueBuilder.priority_present, Hall. }
  split; [apply Hall|]. split; [|split; [|split; [|split]]].
  - apply NoDup_Permutation_bis; try assumption.
    + rewrite Hcan. cbn. lia.
    + intros x _. destruct x; cbn; tauto.
  - rewrite <- Hcan. apply nth_error_Some. congruence.
  - exact Hnth.
  - now apply QueueBuilder.priority_position.
  - pose proof (drop_length c (queue s) Hnd (Hall c)) as Hd.
    unfold toggle. replace (includes c (queue s)) with true
      by (symmetry; apply includes_In, Hall). lia.
Qed.

Lemma canStart_complete_witness :
  let s := mkState SETUP generateOrders [STRAIGHT_UP; NON_CHILLED; ON_THE_ROCKS]
             0 [] [] None in
  NoDup (queue s) /\ canStart s = true /\
  In ON_THE_ROCKS (queue s) /\
  (priority (queue s) ON_THE_ROCKS < 3)%nat.
Proof.
  cbv zeta.
  set (s := mkState SETUP generateOrders [STRAIGHT_UP; NON_CHILLED; ON_THE_ROCKS]
              0 [] [] None).
  assert (Hnd : NoDup (queue s)).
  { cbn [s queue]. repeat constructor; simpl; intuition discriminate. }
  assert (Hcan : canStart s = true) by reflexivity.
  destruct (canStart_complete s ON_THE_ROCKS Hnd Hcan) as (Hin & _ & Hlt & _).
  split; [exact Hnd|]. split; [exact Hcan|]. split; [exact Hin | exact Hlt].
Defined.

End QueueSetup.

(** ** The simulated walk *)

Module Simulation.

Import JS GameLogic App Spec Facts.

Lemma walk_shift (c c' : R) (l : list Drink) : c = c' -> walk c l = walk c' l.
Proof. now intros ->. Qed.

Lemma walk_drinks (c : R) (l : list Drink) : map drink (walk c l) = l.
Proof.
  revert c. induction l as [|d l IH]; intros c; simpl; [reflexivity|].
  now rewrite Evaluation.evaluateDrink_drink, IH.
Qed.

Lemma walk_length (c : R) (l : list Drink) : length (walk c l) = length l.
Proof. rewrite <- (walk_drinks c l) at 2. now rewrite length_map. Qed.

Lemma walk_app (c : R) (l1 l2 : list Drink) :
  walk c (l1 ++ l2) = walk c l1 ++ walk (c + total_duration l1) l2.
Proof.
  revert c. induction l1 as [|d l1 IH]; intros c; simpl.
  - apply walk_shift. lra.
  - rewrite IH. do 2 f_equal. apply walk_shift. lra.
Qed.

Lemma clock_fold (l : list Drink) (c : R) :
  fold_left (fun c d => c + baseFinishSec d) l c = c + total_duration l.
Proof.
  revert c. induction l as [|d l IH]; intros c; simpl.
  - lra.
  - rewrite IH. lra.
Qed.

Lemma simulateFinish_totalSec (l : list Drink) :
  totalSec (simulateFinish l) = total_duration l.
Proof.
  unfold simulateFinish. cbn [totalSec].
  destruct (Evaluation.simulateFinish_loop l (mkSimLoop 0 [] [])) as (_ & _ & ->).
  cbn [sim_clock]. rewrite clock_fold. lra.
Qed.

Lemma walk_nth (l : list Drink) (c : R) (k : nat) (f : FinishedDrink) :
  nth_error (walk c l) k = Some f ->
  nth_error l k = Some (drink f) /\
  waitSec f = c + total_duration (firstn k l) /\
  finishedAt f = waitSec f + baseFinishSec (drink f) /\
  f = finish_record (evaluateDrink (drink f) (waitSec f)) (waitSec f) (finishedAt f).
Proof.
  revert c k. induction l as [|d l IH]; intros c k Hk.
  - destruct k; discriminate Hk.
  - destruct k as [|k]; simpl in Hk.
    + inversion Hk; subst. cbn [finish_record drink waitSec finishedAt].
      rewrite Evaluation.evaluateDrink_drink. simpl.
      repeat split; try reflexivity. lra.
    + destruct (IH _ _ Hk) as (Hd & Hw & Hf & Hrec).
      simpl. split; [exact Hd|]. split; [rewrite Hw; lra|]. now split.
Qed.

(** X14: [simulateFinish] returns one entry per drink, in the order
    given; each drink is evaluated at a wait equal to the finish durations
    of the drinks before it and finishes its own duration later; the total
    is the sum of all the durations. *)
Theorem simulateFinish_timeline (l : list Drink) :
  let sim := simulateFinish l in
  map drink (finished sim) = l /\
  length (finished sim) = length l /\
  totalSec sim = total_duration l /\
  forall k f, nth_error (finished sim) k = Some f ->
    nth_error l k = Some (drink f) /\
    waitSec f = total_duration (firstn k l) /\
    finishedAt f = waitSec f + baseFinishSec (drink f) /\
    f = finish_record (evaluateDrink (drink f) (waitSec f)) (waitSec f) (finishedAt f).
Proof.
  cbv zeta. rewrite Evaluation.simulateFinish_finished.
  split; [apply walk_drinks|]. split; [apply walk_length|].
  split; [apply simulateFinish_totalSec|].
  intros k f Hk. destruct (walk_nth l 0 k f Hk) as (Hd & Hw & Hf & Hrec).
  split; [exact Hd|]. split; [rewrite Hw; lra|]. now split.
Qed.

Lemma simulateFinish_timeline_witness :
  nth_error (finished (simulateFinish generateOrders)) 1
  = Some (mkFinished (mkDrink "2" "Manhattan" STRAIGHT_UP 12 (-3) None None)
            (0 + 12 + 12) (0 + 12) (tempAt (0 + 12) (-3) 22 120) None
            (ev_penalties
               (evaluateDrink (mkDrink "2" "Manhattan" STRAIGHT_UP 12 (-3) None None)
                  (0 + 12)))) /\
  waitSec (mkFinished (mkDrink "2" "Manhattan" STRAIGHT_UP 12 (-3) None None)
            (0 + 12 + 12) (0 + 12) (tempAt (0 + 12) (-3) 22 120) None
            (ev_penalties
               (evaluateDrink (mkDrink "2" "Manhattan" STRAIGHT_UP 12 (-3) None None)
                  (0 + 12))))
  = total_duration (firstn 1 generateOrders).
Proof.
  assert (Hk : nth_error (finished (simulateFinish generateOrders)) 1
    = Some (mkFinished (mkDrink "2" "Manhattan" STRAIGHT_UP 12 (-3) None None)
              (0 + 12 + 12) (0 + 12) (tempAt (0 + 12) (-3) 22 120) None
              (ev_penalties
                 (evaluateDrink (mkDrink "2" "Manhattan" STRAIGHT_UP 12 (-3) None None)
                    (0 + 12))))).
  { rewrite Evaluation.simulateFinish_finished. reflexivity. }
  destruct (simulateFinish_timeline generateOrders) as (_ & _ & _ & Hnth).
  destruct (Hnth _ _ Hk) as (_ & Hw & _).
  split; [exact Hk | exact Hw].
Defined.

(** *** The window *)

Lemma total_duration_nonneg (l : list Drink) :
  Forall (fun d => 0 <= baseFinishSec d) l -> 0 <= total_duration l.
Proof. induction 1; simpl; lra. Qed.

Lemma total_duration_app (l1 l2 : list Drink) :
  total_duration (l1 ++ l2) = total_duration l1 + total_duration l2.
Proof. induction l1 as [|d l1 IH]; simpl; lra. Qed.

Lemma latest_finish (l : list Drink) (c : R) :
  Forall (fun d => 0 <= baseFinishSec d) l ->
  fold_left Rmax (map finishedAt (walk c l)) c = c + total_duration l.
Proof.
  intros Hnn. revert c. induction Hnn as [|d l Hd _ IH]; intros c; simpl.
  - lra.
  - replace (Rmax c (c + baseFinishSec d)) with (c + baseFinishSec d)
      by (unfold Rmax; destruct (Rle_dec c (c + baseFinishSec d)); lra).
    rewrite IH. lra.
Qed.

Lemma earliest_finish (l : list Drink) (c m : R) :
  Forall (fun d => 0 <= baseFinishSec d) l -> m <= c ->
  fold_left Rmin (map finishedAt (walk c l)) m = m.
Proof.
  intros Hnn. revert c m. induction Hnn as [|d l Hd _ IH]; intros c m Hm; simpl.
  - reflexivity.
  - replace (Rmin m (c + baseFinishSec d)) with m
      by (unfold Rmin; destruct (Rle_dec m (c + baseFinishSec d)); lra).
    apply IH. lra.
Qed.

Lemma simulateFinish_times (l : list Drink) :
  windowSec (simulateFinish l)
  = match map finishedAt (walk 0 l) with
    | [] => 0
    | t :: ts => max_of t ts - min_of t ts
    end.
Proof.
  unfold simulateFinish. cbn [windowSec].
  destruct (Evaluation.simulateFinish_loop l (mkSimLoop 0 [] [])) as (_ & -> & _).
  reflexivity.
Qed.

Lemma walk_last (c : R) (l : list Drink) (d : Drink) :
  nth_error (walk c (l ++ [d])) (length l)
  = Some (finish_record (evaluateDrink d (c + total_duration l))
            (c + total_duration l) (c + total_duration l + baseFinishSec d)).
Proof.
  rewrite walk_app, nth_error_app2 by (rewrite walk_length; lia).
  rewrite walk_length, Nat.sub_diag. reflexivity.
Qed.

Lemma windowOf_walk (c : R) (l : list Drink) :
  windowOf (walk c l) = total_duration (tl l).
Proof.
  unfold windowOf. rewrite walk_length.
  destruct l as [|d rest]; [reflexivity|].
  destruct rest as [|e rest]; [reflexivity|].
  cbn [length tl]. replace (1 <? S (S (length rest)))%nat with true by reflexivity.
  destruct (exists_last (l := e :: rest)) as (front & z & Hz); [discriminate|].
  rewrite Hz. replace (S (S (length rest)) - 1)%nat with (length (d :: front)).
  2:{ apply (f_equal (@length _)) in Hz. rewrite length_app in Hz.
      cbn [length] in *. lia. }
  change (d :: front ++ [z]) with ((d :: front) ++ [z]).
  rewrite walk_last. cbn [nth_error app walk finish_record finishedAt].
  rewrite total_duration_app. simpl. lra.
Qed.

(** X15: the window [simulateFinish] reports is 0 for no drink or one
    drink; when no finish duration is negative the largest finish time is
    the last and the smallest the first, so the window is the number the
    free-choice front end computes from the first and last entry of its
    timeline, equally the total less the finish time [0 + duration] of the
    first drink, and it lies between 0 and the total. *)
Theorem simulateFinish_window (l : list Drink) :
  let sim := simulateFinish l in
  ((length l <= 1)%nat -> windowSec sim = 0) /\
  (Forall (fun d => 0 <= baseFinishSec d) l ->
   windowSec sim = windowOf (finished sim) /\
   (forall d rest, l = d :: rest ->
      windowSec sim = totalSec sim - (0 + baseFinishSec d)) /\
   0 <= windowSec sim <= totalSec sim).
Proof.
  cbv zeta. rewrite Evaluation.simulateFinish_finished, simulateFinish_times,
    simulateFinish_totalSec, windowOf_walk.
  split.
  - intros Hlen. destruct l as [|d [|e rest]]; simpl in *; try lia.
    + reflexivity.
    + unfold max_of, min_of. simpl. lra.
  - intros Hnn.
    assert (Hwin : match map finishedAt (walk 0 l) with
                   | [] => 0
                   | t :: ts => max_of t ts - min_of t ts
                   end = total_duration (tl l)).
    { destruct l as [|d rest]; [reflexivity|].
      inversion Hnn as [|? ? Hd Hrest]; subst.
      cbn [walk map finish_record finishedAt tl]. unfold max_of, min_of.
      rewrite latest_finish by assumption.
      rewrite earliest_finish by (assumption || lra). lra. }
    rewrite Hwin. split; [reflexivity|]. split.
    + intros d rest ->. simpl. lra.
    + destruct l as [|d rest]; simpl; [lra|].
      inversion Hnn as [|? ? Hd Hrest]; subst.
      pose proof (total_duration_nonneg rest Hrest). lra.
Qed.

Lemma simulateFinish_window_witness :
  (length [mkDrink "6" "Beer" NON_CHILLED 5 6 None None] <= 1)%nat /\
  windowSec (simulateFinish [mkDrink "6" "Beer" NON_CHILLED 5 6 None None]) = 0 /\
  Forall (fun d => 0 <= baseFinishSec d) generateOrders /\
  windowSec (simulateFinish generateOrders)
  = windowOf (finished (simulateFinish generateOrders)) /\
  windowSec (simulateFinish generateOrders)
  = totalSec (simulateFinish generateOrders) - (0 + 12).
Proof.
  assert (Hlen : (length [mkDrink "6" "Beer" NON_CHILLED 5 6 None None] <= 1)%nat).
  { cbn [length]. lia. }
  assert (Hnn : Forall (fun d => 0 <= baseFinishSec d) generateOrders).
  { unfold generateOrders.
    repeat (apply Forall_cons; [cbn [baseFinishSec]; lra|]). apply Forall_nil. }
  destruct (simulateFinish_window [mkDrink "6" "Beer" NON_CHILLED 5 6 None None])
    as (Hone & _).
  destruct (simulateFinish_window generateOrders) as (_ & Hcat).
  destruct (Hcat Hnn) as (Hwin & Hfirst & _).
  split; [exact Hlen|]. split; [exact (Hone Hlen)|].
  split; [exact Hnn|]. split; [exact Hwin|].
  exact (Hfirst _ _ eq_refl).
Defined.

End Simulation.

(** ** The free-choice round as a whole *)

Module Timeline.

Import JS GameLogic App Spec Facts.

Lemma findIndex_from_first {A : Type} (p : A -> bool) (i : Z)
    (pre : list A) (d : A) (post : list A) :
  Forall (fun x => p x = false) pre -> p d = true ->
  findIndex_from p i (pre ++ d :: post) = (i + Z.of_nat (length pre))%Z.
Proof.
  intros Hpre Hd. revert i. induction Hpre as [|x pre Hx _ IH]; intros i; simpl.
  - rewrite Hd. lia.
  - rewrite Hx, IH. lia.
Qed.

Lemma split_first (l : list Drink) (i : string) :
  In i (map id l) ->
  exists pre d post,
    l = pre ++ d :: post /\ Forall (fun x => id x <> i) pre /\ id d = i.
Proof.
  induction l as [|x l IH]; simpl; intros Hin; [contradiction|].
  destruct (string_dec (id x) i) as [Heq | Hne].
  - exists [], x, l. repeat split; [constructor | assumption].
  - destruct Hin as [Hx | Hin]; [contradiction|].
    destruct (IH Hin) as (pre & d & post & -> & Hpre & Hd).
    exists (x :: pre), d, post. repeat split; [now constructor | assumption].
Qed.

Lemma finishById_exact (s : State) (pre : list Drink) (d : Drink) (post : list Drink) :
  remaining s = pre ++ d :: post ->
  Forall (fun x => id x <> id d) pre ->
  let rec := finish_record (evaluateDrink d (clock s)) (clock s)
               (clock s + baseFinishSec d) in
  finishById s (id d)
  = [setRemaining (pre ++ post); setTimeline (timeline s ++ [rec]);
     setClock (clock s + baseFinishSec d)]
    ++ (if (length (pre ++ post) =? 0)%nat
        then publish s (timeline s ++ [rec]) (clock s + baseFinishSec d)
        else []).
Proof.
  intros Heq Hpre. cbv zeta. unfold finishById, findIndex.
  rewrite Heq, findIndex_from_first.
  - replace (0 + Z.of_nat (length pre) <? 0)%Z with false
      by (symmetry; apply Z.ltb_ge; lia).
    replace (Z.to_nat (0 + Z.of_nat (length pre))) with (length pre) by lia.
    rewrite nth_error_app2, Nat.sub_diag, Round.remove_at by lia.
    reflexivity.
  - eapply Forall_impl; [|exact Hpre]. intros x Hx. now apply String.eqb_neq.
  - apply String.eqb_refl.
Qed.

(** The state a finish action on a drink that is there leaves. *)
Lemma finish_exact (s : State) (pre : list Drink) (d : Drink) (post : list Drink) :
  remaining s = pre ++ d :: post ->
  Forall (fun x => id x <> id d) pre ->
  let rec := finish_record (evaluateDrink d (clock s)) (clock s)
               (clock s + baseFinishSec d) in
  let sc := scoreRound (timeline s ++ [rec]) (windowOf (timeline s ++ [rec]))
              (queue s) in
  finish s (id d)
  = mkState
      (if (length (pre ++ post) =? 0)%nat then RESULTS else phase s)
      (orders s) (queue s) (clock s + baseFinishSec d) (pre ++ post)
      (timeline s ++ [rec])
      (if (length (pre ++ post) =? 0)%nat
       then Some (mkResult (score sc) (windowOf (timeline s ++ [rec]))
                    (clock s + baseFinishSec d) (breakdown sc))
       else result s).
Proof.
  intros Heq Hpre. cbv zeta. unfold finish.
  rewrite (finishById_exact s pre d post Heq Hpre).
  destruct (length (pre ++ post) =? 0)%nat; reflexivity.
Qed.

Lemma finish_step (s : State) (i : string) :
  (~ In i (map id (remaining s)) /\ finish s i = s) \/
  (exists pre d post,
     remaining s = pre ++ d :: post /\
     Forall (fun x => id x <> id d) pre /\
     id d = i /\
     finish s i
     = mkState
         (if (length (pre ++ post) =? 0)%nat then RESULTS else phase s)
         (orders s) (queue s) (clock s + baseFinishSec d) (pre ++ post)
         (timeline s
          ++ [finish_record (evaluateDrink d (clock s)) (clock s)
                (clock s + baseFinishSec d)])
         (if (length (pre ++ post) =? 0)%nat
          then
            let tl := timeline s
                      ++ [finish_record (evaluateDrink d (clock s)) (clock s)
                            (clock s + baseFinishSec d)] in
            let sc := scoreRound tl (windowOf tl) (queue s) in
            Some (mkResult (score sc) (windowOf tl)
                    (clock s + baseFinishSec d) (breakdown sc))
          else result s)).
Proof.
  destruct (in_dec string_dec i (map id (remaining s))) as [Hin | Hnin].
  - right. destruct (split_first _ _ Hin) as (pre & d & post & Heq & Hpre & Hd).
    exists pre, d, post. subst i.
    split; [exact Heq|]. split; [exact Hpre|]. split; [reflexivity|].
    exact (finish_exact s pre d post Heq Hpre).
  - left. split; [assumption | now apply Round.finish_absent].
Qed.

Lemma conserve_step (s : State) (i : string) :
  Permutation (map drink (timeline (finish s i)) ++ remaining (finish s i))
              (map drink (timeline s) ++ remaining s) /\
  orders (finish s i) = orders s /\
  queue (finish s i) = queue s /\
  exists added, timeline (finish s i) = timeline s ++ added /\ (length added <= 1)%nat.
Proof.
  destruct (finish_step s i) as [[_ ->] | (pre & d & post & Heq & _ & _ & ->)].
  - split; [apply Permutation_refl|]. split; [reflexivity|]. split; [reflexivity|].
    exists []. split; [now rewrite app_nil_r | simpl; lia].
  - cbn [timeline remaining orders queue].
    split; [|split; [reflexivity|split; [reflexivity|]]].
    + rewrite Heq, map_app. cbn [map finish_record drink].
      rewrite Evaluation.evaluateDrink_drink, <- app_assoc.
      apply Permutation_app_head. cbn [app].
      apply Permutation_middle.
    + eexists. split; [reflexivity | simpl; lia].
Qed.

(** X16: finish actions neither lose nor duplicate a drink, whatever ids
    they are given: the drinks of the timeline together with the remaining
    drinks stay the same collection; the timeline only grows at its end, by
    at most one entry per action; the catalog and the queue are not
    touched. *)
Theorem drinks_conserved (s : State) (ids : list string) :
  let s' := finish_all s ids in
  Permutation (map drink (timeline s') ++ remaining s')
              (map drink (timeline s) ++ remaining s) /\
  orders s' = orders s /\
  queue s' = queue s /\
  exists added,
    timeline s' = timeline s ++ added /\ (length added <= length ids)%nat.
Proof.
  cbv zeta. unfold finish_all. revert s.
  induction ids as [|i ids IH]; intros s; cbn [fold_left].
  - split; [apply Permutation_refl|]. split; [reflexivity|]. split; [reflexivity|].
    exists []. split; [now rewrite app_nil_r | simpl; lia].
  - destruct (IH (finish s i)) as (Hp & Ho & Hq & added & Ht & Hl).
    destruct (conserve_step s i) as (Hp1 & Ho1 & Hq1 & a1 & Ht1 & Hl1).
    split; [eapply perm_trans; eassumption|].
    split; [congruence|]. split; [congruence|].
    exists (a1 ++ added). split.
    + rewrite Ht, Ht1. now rewrite app_assoc.
    + rewrite length_app. cbn [length]. lia.
Qed.

Lemma replayable_walk (s : State) :
  replayable s <->
  timeline s = walk 0 (map drink (timeline s)) /\
  clock s = total_duration (map drink (timeline s)).
Proof.
  unfold replayable.
  now rewrite Evaluation.simulateFinish_finished, Simulation.simulateFinish_totalSec.
Qed.

Lemma replayable_step (s : State) (i : string) :
  replayable s -> replayable (finish s i).
Proof.
  intros Hr. destruct (finish_step s i) as [[_ ->] | (pre & d & post & _ & _ & _ & ->)];
    [assumption|].
  apply replayable_walk in Hr. destruct Hr as [Htl Hck].
  apply replayable_walk. cbn [timeline clock].
  rewrite map_app. cbn [map finish_record drink].
  rewrite Evaluation.evaluateDrink_drink.
  rewrite Simulation.walk_app, Simulation.total_duration_app, <- Htl.
  split.
  - f_equal. cbn [walk]. f_equal.
    replace (0 + total_duration (map drink (timeline s))) with (clock s) by lra.
    reflexivity.
  - simpl. lra.
Qed.

(** X17: however the user picks the drinks, the free-choice timeline is
    the timeline [simulateFinish] returns for the drinks finished so far
    taken in the order they were finished, and the clock is its total: a
    state that is so stays so under any finish actions, and a round that
    starts with an empty timeline at clock 0 is so. *)
Theorem free_choice_replays (s : State) (ids : list string) :
  (replayable s -> replayable (finish_all s ids)) /\
  (timeline s = [] -> clock s = 0 -> replayable (finish_all s ids)).
Proof.
  assert (Hall : forall s0, replayable s0 -> replayable (finish_all s0 ids)).
  { unfold finish_all. induction ids as [|i ids IH]; intros s0 Hr; cbn [fold_left].
    - assumption.
    - apply IH. now apply replayable_step. }
  split; [apply Hall|].
  intros Htl Hck. apply Hall. apply replayable_walk. rewrite Htl. simpl.
  split; [reflexivity | assumption].
Qed.

Lemma free_choice_replays_witness :
  timeline round_start = [] /\ clock round_start = 0 /\
  replayable (finish_all round_start ["5"; "1"; "9"; "6"]%string).
Proof.
  assert (Htl : timeline round_start = []) by reflexivity.
  assert (Hck : clock round_start = 0) by reflexivity.
  destruct (free_choice_replays round_start ["5"; "1"; "9"; "6"]%string) as (_ & H).
  split; [exact Htl|]. split; [exact Hck | exact (H Htl Hck)].
Defined.

(** X18: a finish action whose id is among the remaining drinks publishes
    the result exactly when it finishes the last one: then the phase becomes
    RESULTS and the result holds the score of the whole timeline for the
    window from its first to its last finish, with the clock as total;
    otherwise phase and result are left as they were. *)
Theorem result_at_last (s : State) (i : string) :
  In i (map id (remaining s)) ->
  let s' := finish s i in
  let sc := scoreRound (timeline s') (windowOf (timeline s')) (queue s) in
  (remaining s' = [] ->
   phase s' = RESULTS /\
   result s' = Some (mkResult (score sc) (windowOf (timeline s')) (clock s')
                       (breakdown sc)) /\
   0 <= score sc <= 100) /\
  (remaining s' <> [] -> phase s' = phase s /\ result s' = result s).
Proof.
  intros Hin. cbv zeta.
  destruct (finish_step s i) as [[Hnin _] | (pre & d & post & _ & _ & _ & ->)];
    [contradiction|].
  cbn [remaining phase result timeline clock].
  destruct (pre ++ post) eqn:Hrest; cbn [length Nat.eqb]; split.
  - intros _. split; [reflexivity|]. split; [reflexivity|].
    rewrite ScoreBounds.score_eq. apply clamp_bounds. lra.
  - congruence.
  - discriminate.
  - intros _. split; reflexivity.
Qed.

Lemma result_at_last_witness :
  let s := mkState RUNNING generateOrders recommendedOrder 0
             [mkDrink "6" "Beer" NON_CHILLED 5 6 None None] [] None in
  In "6"%string (map id (remaining s)) /\
  remaining (finish s "6") = [] /\
  phase (finish s "6") = RESULTS.
Proof.
  cbv zeta.
  set (s := mkState RUNNING generateOrders recommendedOrder 0
              [mkDrink "6" "Beer" NON_CHILLED 5 6 None None] [] None).
  assert (Hin : In "6"%string (map id (remaining s))) by (cbn; now left).
  destruct (result_at_last s "6" Hin) as (Hlast & _).
  assert (Hrem : remaining (finish s "6") = []).
  { destruct (finish_step s "6")
      as [[Hnin _] | (pre & d & post & Heq & _ & _ & ->)]; [contradiction|].
    cbn [remaining]. cbn [s remaining] in Heq.
    destruct pre as [|x pre].
    - inversion Heq; subst. reflexivity.
    - inversion Heq as [[Hx Hrest]]. now destruct pre. }
  split; [exact Hin|]. split; [exact Hrem|].
  exact (proj1 (Hlast Hrem)).
Defined.

Lemma finish_all_empties (ids : list string) (s : State) :
  Permutation ids (map id (remaining s)) ->
  remaining (finish_all s ids) = [] /\
  (ids <> [] -> phase (finish_all s ids) = RESULTS /\
                result (finish_all s ids) <> None).
Proof.
  unfold finish_all. revert s.
  induction ids as [|i ids IH]; intros s Hperm; cbn [fold_left].
  - apply Permutation_nil in Hperm. apply map_eq_nil in Hperm.
    split; [assumption | congruence].
  - assert (Hin : In i (map id (remaining s))).
    { eapply Permutation_in; [exact Hperm | now left]. }
    destruct (finish_step s i) as [[Hnin _] | (pre & d & post & Heq & _ & Hd & Hfin)];
      [contradiction|].
    assert (Hperm' : Permutation ids (map id (remaining (finish s i)))).
    { rewrite Hfin. cbn [remaining]. rewrite Heq, map_app in Hperm.
      cbn [map] in Hperm. rewrite Hd in Hperm. rewrite map_app.
      eapply Permutation_cons_app_inv. exact Hperm. }
    destruct (IH _ Hperm') as [Hrem Hres]. split; [exact Hrem|].
    intros _. destruct ids as [|j ids'].
    + cbn [fold_left]. apply Permutation_nil in Hperm'. apply map_eq_nil in Hperm'.
      rewrite Hfin in Hperm' |- *. cbn [remaining] in Hperm'.
      cbn [phase result]. rewrite Hperm'. cbn. split; [reflexivity | discriminate].
    + apply Hres. discriminate.
Qed.

(** X19: finishing the ids of the remaining drinks, once each and in any
    order, ends the round: no drink remains, the timeline holds the drinks
    it held and those that remained, and, if there was a drink to finish,
    the phase is RESULTS and a result is set. *)
Theorem any_order_completes (s : State) (ids : list string) :
  Permutation ids (map id (remaining s)) ->
  let s' := finish_all s ids in
  remaining s' = [] /\
  Permutation (map drink (timeline s')) (map drink (timeline s) ++ remaining s) /\
  length (timeline s') = (length (timeline s) + length ids)%nat /\
  (ids <> [] -> phase s' = RESULTS /\ result s' <> None).
Proof.
  intros Hperm. cbv zeta.
  destruct (finish_all_empties ids s Hperm) as [Hrem Hres].
  assert (Hcons : Permutation
            (map drink (timeline (finish_all s ids)) ++ remaining (finish_all s ids))
            (map drink (timeline s) ++ remaining s)).
  { unfold finish_all. clear. revert s.
    induction ids as [|i ids IH]; intros s; cbn [fold_left].
    - apply Permutation_refl.
    - eapply perm_trans; [apply IH | apply conserve_step]. }
  rewrite Hrem, app_nil_r in Hcons.
  split; [exact Hrem|]. split; [exact Hcons|]. split; [|exact Hres].
  apply Permutation_length in Hcons. apply Permutation_length in Hperm.
  rewrite length_app, !length_map in Hcons. rewrite length_map in Hperm. lia.
Qed.

Lemma any_order_completes_witness :
  Permutation ["7"; "3"; "1"; "5"; "2"; "6"; "4"]%string
              (map id (remaining round_start)) /\
  remaining (finish_all round_start ["7"; "3"; "1"; "5"; "2"; "6"; "4"]%string) = [] /\
  phase (finish_all round_start ["7"; "3"; "1"; "5"; "2"; "6"; "4"]%string) = RESULTS.
Proof.
  assert (Hperm : Permutation ["7"; "3"; "1"; "5"; "2"; "6"; "4"]%string
                    (map id (remaining round_start))).
  { cbn [round_start remaining generateOrders map id].
    apply (Permutation_cons_app ["1"; "2"; "3"; "4"; "5"; "6"]%string []).
    apply (Permutation_cons_app ["1"; "2"]%string ["4"; "5"; "6"]%string).
    apply (Permutation_cons_app [] ["2"; "4"; "5"; "6"]%string).
    apply (Permutation_cons_app ["2"; "4"]%string ["6"]%string).
    apply (Permutation_cons_app [] ["4"; "6"]%string).
    apply (Permutation_cons_app ["4"]%string []).
    apply Permutation_refl. }
  destruct (any_order_completes round_start _ Hperm) as (Hrem & _ & _ & Hres).
  split; [exact Hperm|]. split; [exact Hrem|].
  apply Hres. discriminate.
Defined.

(** *** Following the suggestion *)

Lemma auto_step (s : State) (d : Drink) (rest : list Drink) :
  remaining s = d :: rest ->
  commit s (finishNextAuto s)
  = mkState
      (if (length rest =? 0)%nat then RESULTS else phase s)
      (orders s) (queue s) (clock s + baseFinishSec d) rest
      (timeline s
       ++ [finish_record (evaluateDrink d (clock s)) (clock s)
             (clock s + baseFinishSec d)])
      (if (length rest =? 0)%nat
       then
         let tl := timeline s
                   ++ [finish_record (evaluateDrink d (clock s)) (clock s)
                         (clock s + baseFinishSec d)] in
         let sc := scoreRound tl (windowOf tl) (queue s) in
         Some (mkResult (score sc) (windowOf tl)
                 (clock s + baseFinishSec d) (breakdown sc))
       else result s).
Proof.
  intros Heq. unfold finishNextAuto. rewrite Heq.
  exact (finish_exact s [] d rest Heq (Forall_nil _)).
Qed.

Lemma auto_idle (n : nat) (s : State) : remaining s = [] -> auto_run n s = s.
Proof.
  intros Heq. induction n as [|n IH]; cbn [auto_run]; [reflexivity|].
  unfold finishNextAuto. rewrite Heq. exact IH.
Qed.

Lemma auto_step_fields (s : State) (d : Drink) (rest : list Drink) :
  remaining s = d :: rest ->
  let s1 := commit s (finishNextAuto s) in
  timeline s1
  = timeline s ++ [finish_record (evaluateDrink d (clock s)) (clock s)
                     (clock s + baseFinishSec d)] /\
  remaining s1 = rest /\
  clock s1 = clock s + baseFinishSec d /\
  queue s1 = queue s.
Proof.
  intros Heq. cbv zeta. rewrite (auto_step s d rest Heq). repeat split.
Qed.

Lemma auto_state (n : nat) (s : State) :
  timeline (auto_run n s)
  = timeline s ++ walk (clock s) (firstn n (remaining s)) /\
  remaining (auto_run n s) = skipn n (remaining s) /\
  clock (auto_run n s) = clock s + total_duration (firstn n (remaining s)) /\
  queue (auto_run n s) = queue s.
Proof.
  revert s. induction n as [|n IH]; intros s.
  - cbn. rewrite app_nil_r. repeat split. lra.
  - destruct (remaining s) as [|d rest] eqn:Heq.
    + rewrite auto_idle by assumption. rewrite Heq. cbn.
      rewrite app_nil_r. repeat split. lra.
    + cbn [auto_run].
      destruct (auto_step_fields s d rest Heq) as (Ht1 & Hr1 & Hc1 & Hq1).
      destruct (IH (commit s (finishNextAuto s))) as (Ht & Hr & Hc & Hq).
      rewrite Ht, Hr, Hc, Hq, Ht1, Hr1, Hc1, Hq1.
      cbn [firstn skipn walk].
      rewrite <- app_assoc. repeat split.
      change (total_duration (d :: firstn n rest))
        with (baseFinishSec d + total_duration (firstn n rest)).
      lra.
Qed.

Lemma auto_result (n : nat) (s : State) :
  remaining s <> [] -> (length (remaining s) <= n)%nat ->
  let s' := auto_run n s in
  let sc := scoreRound (timeline s') (windowOf (timeline s')) (queue s) in
  phase s' = RESULTS /\
  result s' = Some (mkResult (score sc) (windowOf (timeline s')) (clock s')
                      (breakdown sc)).
Proof.
  cbv zeta. revert s. induction n as [|n IH]; intros s Hne Hlen.
  - destruct (remaining s); [congruence | simpl in Hlen; lia].
  - destruct (remaining s) as [|d rest] eqn:Heq; [congruence|].
    cbn [auto_run].
    destruct (auto_step_fields s d rest Heq) as (_ & Hr1 & _ & Hq1).
    destruct rest as [|e rest].
    + rewrite auto_idle by assumption.
      rewrite (auto_step s d [] Heq). cbn. split; reflexivity.
    + rewrite <- Hq1. apply IH.
      * rewrite Hr1. discriminate.
      * rewrite Hr1. cbn [length] in *. lia.
Qed.

Lemma auto_saturated (n : nat) (s : State) :
  (length (remaining s) <= n)%nat -> auto_run (S n) s = auto_run n s.
Proof.
  revert s. induction n as [|n IH]; intros s Hlen.
  - destruct (remaining s) as [|d rest] eqn:Heq; [|simpl in Hlen; lia].
    now apply auto_idle.
  - destruct (remaining s) as [|d rest] eqn:Heq.
    + rewrite !auto_idle by assumption. reflexivity.
    + change (auto_run (S (S n)) s)
        with (auto_run (S n) (commit s (finishNextAuto s))).
      change (auto_run (S n) s) with (auto_run n (commit s (finishNextAuto s))).
      apply IH.
      destruct (auto_step_fields s d rest Heq) as (_ & -> & _).
      cbn [length] in Hlen. lia.
Qed.

(** X20: a click on "Finish Next" finishes the first remaining drink;
    as many clicks as there are drinks, from an empty timeline at clock 0,
    leave the timeline and total of [simulateFinish] on the remaining
    drinks, no drink remaining, and the result published for that timeline;
    fewer clicks leave the corresponding prefix; further clicks change
    nothing. *)
Theorem auto_run_simulates (s : State) (n : nat) :
  timeline s = [] -> clock s = 0 ->
  let sim := simulateFinish (remaining s) in
  timeline (auto_run n s) = firstn n (finished sim) /\
  remaining (auto_run n s) = skipn n (remaining s) /\
  ((length (remaining s) <= n)%nat ->
   timeline (auto_run n s) = finished sim /\
   clock (auto_run n s) = totalSec sim /\
   remaining (auto_run n s) = [] /\
   auto_run (S n) s = auto_run n s /\
   (remaining s <> [] ->
    let sc := scoreRound (finished sim) (windowOf (finished sim)) (queue s) in
    phase (auto_run n s) = RESULTS /\
    result (auto_run n s)
    = Some (mkResult (score sc) (windowOf (finished sim))
              (clock (auto_run n s)) (breakdown sc)))).
Proof.
  intros Htl Hck. cbv zeta.
  destruct (auto_state n s) as (Ht & Hr & Hc & Hq).
  rewrite Htl, Hck in *. cbn [app] in Ht.
  rewrite Evaluation.simulateFinish_finished, Simulation.simulateFinish_totalSec.
  assert (Hfirst : forall k c l, firstn k (walk c l) = walk c (firstn k l)).
  { clear. intros k. induction k as [|k IH]; intros c [|d l]; simpl;
      try reflexivity. now rewrite IH. }
  split; [now rewrite Hfirst|]. split; [exact Hr|].
  intros Hlen. rewrite firstn_all2 in Ht, Hc by assumption.
  assert (Hrem : remaining (auto_run n s) = []).
  { rewrite Hr. now apply skipn_all2. }
  split; [exact Ht|]. split; [rewrite Hc; lra|]. split; [exact Hrem|]. split.
  - now apply auto_saturated.
  - intros Hne. destruct (auto_result n s Hne Hlen) as (Hph & Hres).
    rewrite Ht in Hres. split; [exact Hph | exact Hres].
Qed.

Lemma auto_run_simulates_witness :
  timeline round_start = [] /\ clock round_start = 0 /\
  (length (remaining round_start) <= 7)%nat /\
  timeline (auto_run 7 round_start)
  = finished (simulateFinish (remaining round_start)) /\
  remaining (auto_run 7 round_start) = [].
Proof.
  assert (Htl : timeline round_start = []) by reflexivity.
  assert (Hck : clock round_start = 0) by reflexivity.
  assert (Hlen : (length (remaining round_start) <= 7)%nat) by (cbn; lia).
  destruct (auto_run_simulates round_start 7 Htl Hck) as (_ & _ & Hfull).
  destruct (Hfull Hlen) as (Ht & _ & Hr & _).
  split; [exact Htl|]. split; [exact Hck|]. split; [exact Hlen|].
  split; [exact Ht | exact Hr].
Defined.

End Timeline.

(** ** The auto-sequential round *)

Module AutoRound.

Import JS GameLogic App Spec Facts.

Lemma skipn_nth {A : Type} (l : list A) (c : nat) (f : A) :
  nth_error l c = Some f -> skipn c l = f :: skipn (S c) l.
Proof.
  revert c. induction l as [|x l IH]; intros [|c] H; try discriminate H.
  - now inversion H.
  - simpl in H. apply IH in H. exact H.
Qed.

Lemma firstn_walk (k : nat) (c : R) (l : list Drink) :
  firstn k (walk c l) = walk c (firstn k l).
Proof.
  revert c l. induction k as [|k IH]; intros c [|d l]; simpl; try reflexivity.
  now rewrite IH.
Qed.

Section Run.
Variables (o : list Drink) (q : list Category).

Let ordered := sortByFinishQueue o q.
Let F := finished (simulateFinish ordered).
Let n := length ordered.

Lemma F_length : length F = n.
Proof.
  unfold F, n. rewrite Evaluation.simulateFinish_finished.
  apply Simulation.walk_length.
Qed.

Lemma next_idle (a : AppAuto.State) :
  on_catalog o q a -> (n <= AppAuto.cursor a)%nat ->
  AppAuto.commit a (AppAuto.finishNext a) = a.
Proof.
  intros [Ho Hq] Hc. unfold AppAuto.finishNext, AppAuto.sortedPreview.
  rewrite Ho, Hq. fold ordered. fold n.
  now replace (n <=? AppAuto.cursor a)%nat with true
    by (symmetry; apply Nat.leb_le; assumption).
Qed.

Lemma next_step (a : AppAuto.State) :
  on_catalog o q a -> (AppAuto.cursor a < n)%nat ->
  exists f,
    nth_error F (AppAuto.cursor a) = Some f /\
    AppAuto.commit a (AppAuto.finishNext a)
    = AppAuto.mkState
        (if (AppAuto.cursor a + 1 =? n)%nat then RESULTS else AppAuto.phase a)
        o q (AppAuto.cursor a + 1)%nat (AppAuto.timeline a ++ [f])
        (if (AppAuto.cursor a + 1 =? n)%nat
         then Some (suggested_result o q) else AppAuto.result a).
Proof.
  intros [Ho Hq] Hc.
  destruct (nth_error F (AppAuto.cursor a)) as [f|] eqn:Hf.
  2:{ apply nth_error_None in Hf. rewrite F_length in Hf. lia. }
  exists f. split; [reflexivity|].
  unfold AppAuto.finishNext, AppAuto.sortedPreview.
  rewrite Ho, Hq. fold ordered. fold n. fold F.
  replace (n <=? AppAuto.cursor a)%nat with false
    by (symmetry; apply Nat.leb_gt; assumption).
  rewrite Hf. cbv zeta.
  destruct (AppAuto.cursor a + 1 =? n)%nat; cbn; now rewrite ?Ho, ?Hq.
Qed.

Lemma run_idle (k : nat) (a : AppAuto.State) :
  on_catalog o q a -> (n <= AppAuto.cursor a)%nat -> AppAuto.run k a = a.
Proof.
  intros Hcat Hc. induction k as [|k IH]; cbn [AppAuto.run]; [reflexivity|].
  now rewrite next_idle.
Qed.

Lemma run_fields (k : nat) (a : AppAuto.State) :
  on_catalog o q a ->
  on_catalog o q (AppAuto.run k a) /\
  AppAuto.timeline (AppAuto.run k a)
  = AppAuto.timeline a ++ firstn k (skipn (AppAuto.cursor a) F) /\
  AppAuto.cursor (AppAuto.run k a)
  = Nat.max (AppAuto.cursor a) (Nat.min (AppAuto.cursor a + k) n).
Proof.
  revert a. induction k as [|k IH]; intros a Hcat.
  - cbn. rewrite app_nil_r, Nat.add_0_r. repeat split; try apply Hcat. lia.
  - destruct (Nat.le_gt_cases n (AppAuto.cursor a)) as [Hge | Hlt].
    + rewrite run_idle by assumption.
      rewrite skipn_all2 by (rewrite F_length; assumption).
      rewrite firstn_nil, app_nil_r. repeat split; try apply Hcat. lia.
    + cbn [AppAuto.run].
      destruct (next_step a Hcat Hlt) as (f & Hf & ->).
      match goal with |- context [AppAuto.run k ?a1] =>
        destruct (IH a1) as (Hc1 & Ht1 & Hk1); [split; reflexivity|] end.
      cbn [AppAuto.timeline AppAuto.cursor] in Ht1, Hk1.
      split; [exact Hc1|]. split.
      * rewrite Ht1, (skipn_nth _ _ _ Hf), <- app_assoc.
        replace (AppAuto.cursor a + 1)%nat with (S (AppAuto.cursor a)) by lia.
        reflexivity.
      * rewrite Hk1. lia.
Qed.

Lemma run_early (k : nat) (a : AppAuto.State) :
  on_catalog o q a -> (AppAuto.cursor a + k < n)%nat ->
  AppAuto.phase (AppAuto.run k a) = AppAuto.phase a /\
  AppAuto.result (AppAuto.run k a) = AppAuto.result a.
Proof.
  revert a. induction k as [|k IH]; intros a Hcat Hlt; [now split|].
  cbn [AppAuto.run].
  destruct (next_step a Hcat) as (f & _ & ->); [lia|].
  replace (AppAuto.cursor a + 1 =? n)%nat with false
    by (symmetry; apply Nat.eqb_neq; lia).
  match goal with |- context [AppAuto.run k ?a1] =>
    destruct (IH a1) as (Hp & Hr); [split; reflexivity | cbn; lia |] end.
  now rewrite Hp, Hr.
Qed.

Lemma run_late (k : nat) (a : AppAuto.State) :
  on_catalog o q a -> (AppAuto.cursor a < n)%nat -> (n <= AppAuto.cursor a + k)%nat ->
  AppAuto.phase (AppAuto.run k a) = RESULTS /\
  AppAuto.result (AppAuto.run k a) = Some (suggested_result o q).
Proof.
  revert a. induction k as [|k IH]; intros a Hcat Hlt Hge; [lia|].
  cbn [AppAuto.run].
  destruct (next_step a Hcat Hlt) as (f & _ & ->).
  destruct (AppAuto.cursor a + 1 =? n)%nat eqn:Hend.
  - apply Nat.eqb_eq in Hend.
    rewrite run_idle; [now split | split; reflexivity | cbn; lia].
  - apply Nat.eqb_neq in Hend.
    apply IH; [split; reflexivity | cbn; lia | cbn; lia].
Qed.

Lemma run_saturated (k : nat) (a : AppAuto.State) :
  on_catalog o q a -> (n <= AppAuto.cursor a + k)%nat ->
  AppAuto.run (S k) a = AppAuto.run k a.
Proof.
  revert a. induction k as [|k IH]; intros a Hcat Hge.
  - cbn [AppAuto.run]. apply next_idle; [assumption | lia].
  - destruct (Nat.le_gt_cases n (AppAuto.cursor a)) as [Hfull | Hlt].
    + now rewrite !run_idle.
    + change (AppAuto.run (S (S k)) a)
        with (AppAuto.run (S k) (AppAuto.commit a (AppAuto.finishNext a))).
      change (AppAuto.run (S k) a)
        with (AppAuto.run k (AppAuto.commit a (AppAuto.finishNext a))).
      destruct (next_step a Hcat Hlt) as (f & _ & ->).
      apply IH; [split; reflexivity | cbn; lia].
Qed.
End Run.

(** X21: in the auto-sequential front end, [k] clicks on "Finish Next"
    after the start of a round leave the first [k] entries of the timeline
    [simulateFinish] returns for the suggested order, and the cursor at [k]
    or at the end; before the last drink phase and result are untouched;
    with the last drink the result of the whole simulation is published;
    clicks past the end change nothing. *)
Theorem auto_sequential_run (a : AppAuto.State) (k : nat) :
  AppAuto.cursor a = 0%nat -> AppAuto.timeline a = [] ->
  let ordered := AppAuto.sortedPreview a in
  let a' := AppAuto.run k a in
  AppAuto.timeline a' = firstn k (finished (simulateFinish ordered)) /\
  AppAuto.cursor a' = Nat.min k (length ordered) /\
  AppAuto.orders a' = AppAuto.orders a /\
  AppAuto.queue a' = AppAuto.queue a /\
  ((k < length ordered)%nat ->
   AppAuto.phase a' = AppAuto.phase a /\ AppAuto.result a' = AppAuto.result a) /\
  ((length ordered <= k)%nat ->
   AppAuto.timeline a' = finished (simulateFinish ordered) /\
   AppAuto.run (S k) a = a' /\
   (ordered <> [] ->
    AppAuto.phase a' = RESULTS /\
    AppAuto.result a'
    = Some (suggested_result (AppAuto.orders a) (AppAuto.queue a)))).
Proof.
  intros Hc Ht. cbv zeta. unfold AppAuto.sortedPreview.
  set (o := AppAuto.orders a). set (q := AppAuto.queue a).
  assert (Hcat : on_catalog o q a) by (split; reflexivity).
  destruct (run_fields o q k a Hcat) as ((Ho & Hq) & Htl & Hcur).
  rewrite Hc, Ht in *. cbn [skipn app Nat.add] in Htl, Hcur.
  split; [exact Htl|]. split; [rewrite Hcur; lia|].
  split; [exact Ho|]. split; [exact Hq|]. split.
  - intros Hlt. apply (run_early o q); [assumption | lia].
  - intros Hge.
    pose proof (F_length o q) as HF.
    split; [rewrite Htl; apply firstn_all2; rewrite HF; assumption|].
    split; [apply (run_saturated o q); [assumption | lia]|].
    intros Hne. apply (run_late o q); try assumption; try lia.
    rewrite Hc. destruct (sortByFinishQueue o q); [congruence | simpl; lia].
Qed.

Lemma auto_sequential_run_witness :
  let a := AppAuto.mkState RUNNING generateOrders recommendedOrder 0 [] None in
  AppAuto.cursor a = 0%nat /\ AppAuto.timeline a = [] /\
  AppAuto.timeline (AppAuto.run 3 a)
  = firstn 3 (finished (simulateFinish (AppAuto.sortedPreview a))) /\
  AppAuto.cursor (AppAuto.run 3 a) = Nat.min 3 (length (AppAuto.sortedPreview a)).
Proof.
  cbv zeta.
  set (a := AppAuto.mkState RUNNING generateOrders recommendedOrder 0 [] None).
  assert (Hc : AppAuto.cursor a = 0%nat) by reflexivity.
  assert (Ht : AppAuto.timeline a = []) by reflexivity.
  destruct (auto_sequential_run a 3 Hc Ht) as (Htl & Hcur & _).
  split; [exact Hc|]. split; [exact Ht|]. split; [exact Htl | exact Hcur].
Defined.

(** *** The two front ends *)

Lemma window_agrees (l : list Drink) :
  Forall (fun d => 0 <= baseFinishSec d) l ->
  windowSec (simulateFinish l) = windowOf (walk 0 l).
Proof.
  intros Hnn. rewrite Simulation.simulateFinish_times, Simulation.windowOf_walk.
  destruct l as [|d rest]; [reflexivity|].
  inversion Hnn as [|? ? Hd Hrest]; subst.
  cbn [walk map finish_record finishedAt tl]. unfold max_of, min_of.
  rewrite Simulation.latest_finish by assumption.
  rewrite Simulation.earliest_finish by (assumption || lra). lra.
Qed.

Lemma sorted_nonneg (o : list Drink) (q : list Category) :
  Forall (fun d => 0 <= baseFinishSec d) o ->
  Forall (fun d => 0 <= baseFinishSec d) (sortByFinishQueue o q).
Proof.
  intros Hnn. eapply Permutation_Forall; [|exact Hnn].
  apply QueueBuilder.sort_perm.
Qed.

(** X22: started on the same catalog and queue, the free-choice front
    end driven by "Finish Next" and the auto-sequential front end show the
    same timeline after every click; and when no finish duration is
    negative they end, after as many clicks as there are drinks, in the same
    phase with the same result, although one takes the window from the
    first and last entry and the other from the largest and smallest finish
    time. *)
Theorem front_ends_agree (s : State) (a : AppAuto.State) (k : nat) :
  AppAuto.orders a = orders s -> AppAuto.queue a = queue s ->
  let s0 := commit s (startRound s) in
  let a0 := AppAuto.commit a (AppAuto.startRound a) in
  timeline (auto_run k s0) = AppAuto.timeline (AppAuto.run k a0) /\
  (Forall (fun d => 0 <= baseFinishSec d) (orders s) ->
   orders s <> [] -> (length (orders s) <= k)%nat ->
   phase (auto_run k s0) = AppAuto.phase (AppAuto.run k a0) /\
   result (auto_run k s0) = AppAuto.result (AppAuto.run k a0) /\
   result (auto_run k s0) = Some (suggested_result (orders s) (queue s))).
Proof.
  intros Ho Hq. cbv zeta.
  set (s0 := commit s (startRound s)).
  set (a0 := AppAuto.commit a (AppAuto.startRound a)).
  set (ordered := sortByFinishQueue (orders s) (queue s)).
  assert (Hrem : remaining s0 = ordered) by reflexivity.
  assert (Htl0 : timeline s0 = []) by reflexivity.
  assert (Hck0 : clock s0 = 0) by reflexivity.
  assert (Hq0 : queue s0 = queue s) by reflexivity.
  assert (Hta0 : AppAuto.timeline a0 = []) by reflexivity.
  assert (Hca0 : AppAuto.cursor a0 = 0%nat) by reflexivity.
  assert (Hcat : on_catalog (orders s) (queue s) a0).
  { split; cbn; assumption. }
  clearbody s0 a0.
  assert (Hlen : length ordered = length (orders s)).
  { symmetry. apply Permutation_length, QueueBuilder.sort_perm. }
  destruct (Timeline.auto_state k s0) as (Ht & _ & Hc & _).
  rewrite Hrem, Hck0 in Ht, Hc. rewrite Htl0 in Ht. cbn [app] in Ht.
  destruct (run_fields (orders s) (queue s) k a0 Hcat) as (_ & Hta & _).
  rewrite Hta0, Hca0 in Hta. cbn [skipn app] in Hta.
  fold ordered in Hta. rewrite Evaluation.simulateFinish_finished in Hta.
  split.
  - rewrite Ht, Hta. symmetry. apply firstn_walk.
  - intros Hnn Hne Hk.
    assert (Hne' : remaining s0 <> []).
    { rewrite Hrem. intros E. rewrite E in Hlen. destruct (orders s); [congruence|].
      simpl in Hlen. lia. }
    assert (Hk' : (length (remaining s0) <= k)%nat) by (rewrite Hrem; lia).
    destruct (Timeline.auto_result k s0 Hne' Hk') as (Hph & Hres).
    assert (Hlate : AppAuto.phase (AppAuto.run k a0) = RESULTS /\
                    AppAuto.result (AppAuto.run k a0)
                    = Some (suggested_result (orders s) (queue s))).
    { apply run_late; [assumption | |]; fold ordered; rewrite Hca0.
      - destruct (orders s); [congruence | simpl in Hlen; lia].
      - lia. }
    destruct Hlate as (Hpha & Hresa).
    assert (Hsame : result (auto_run k s0)
                    = Some (suggested_result (orders s) (queue s))).
    { rewrite Hres, Ht, Hc, firstn_all2 by lia.
      unfold suggested_result. fold ordered.
      rewrite Evaluation.simulateFinish_finished,
        Simulation.simulateFinish_totalSec,
        (window_agrees ordered (sorted_nonneg _ _ Hnn)).
      rewrite Hq0. do 2 f_equal. lra. }
    split; [now rewrite Hph, Hpha|]. split; [now rewrite Hsame, Hresa | exact Hsame].
Qed.

Lemma front_ends_agree_witness :
  let s := mkState SETUP generateOrders recommendedOrder 0 [] [] None in
  let a := AppAuto.mkState SETUP generateOrders recommendedOrder 0 [] None in
  AppAuto.orders a = orders s /\ AppAuto.queue a = queue s /\
  Forall (fun d => 0 <= baseFinishSec d) (orders s) /\
  orders s <> [] /\ (length (orders s) <= 7)%nat /\
  result (auto_run 7 (commit s (startRound s)))
  = AppAuto.result (AppAuto.run 7 (AppAuto.commit a (AppAuto.startRound a))).
Proof.
  cbv zeta.
  set (s := mkState SETUP generateOrders recommendedOrder 0 [] [] None).
  set (a := AppAuto.mkState SETUP generateOrders recommendedOrder 0 [] None).
  assert (Ho : AppAuto.orders a = orders s) by reflexivity.
  assert (Hq : AppAuto.queue a = queue s) by reflexivity.
  assert (Hnn : Forall (fun d => 0 <= baseFinishSec d) (orders s)).
  { cbn [s orders]. unfold generateOrders.
    repeat (apply Forall_cons; [cbn [baseFinishSec]; lra|]). apply Forall_nil. }
  assert (Hne : orders s <> []) by discriminate.
  assert (Hk : (length (orders s) <= 7)%nat) by (cbn; lia).
  destruct (front_ends_agree s a 7 Ho Hq) as (_ & Hend).
  destruct (Hend Hnn Hne Hk) as (_ & Hres & _).
  split; [exact Ho|]. split; [exact Hq|]. split; [exact Hnn|].
  split; [exact Hne|]. split; [exact Hk | exact Hres].
Defined.

End AutoRound.

(** ** More on the suggested order *)

Module Suggestion.

Import JS GameLogic App Spec Facts.

Section SortedInput.
Context {A : Type} (cmp : A -> A -> R) (le : A -> A -> Prop).
Hypothesis cmp_le : forall a b, cmp a b <= 0 <-> le a b.

Lemma sort_of_sorted (l : list A) : StronglySorted le l -> sort cmp l = l.
Proof.
  induction 1 as [|x l Hs IH Hall]; [reflexivity|].
  cbn [sort]. rewrite IH. destruct l as [|y l]; [reflexivity|].
  cbn [sort_insert]. inversion Hall as [|? ? Hxy _]; subst.
  apply cmp_le in Hxy. now destruct (Rle_dec (cmp x y) 0).
Qed.
End SortedInput.

Lemma priority_no_queue (c : Category) : priority [] c = 99%nat.
Proof. reflexivity. Qed.

(** X23: [sortByFinishQueue] changes nothing in a list that is already in
    the suggested order, so sorting twice is sorting once; it returns as
    many drinks as it is given, none for none; and with an empty queue,
    where every category has the fallback priority, the drinks come out by
    finish duration alone. *)
Theorem sortByFinishQueue_fixpoint (drinks : list Drink) (queue : list Category) :
  (StronglySorted (key_le queue) drinks -> sortByFinishQueue drinks queue = drinks) /\
  sortByFinishQueue (sortByFinishQueue drinks queue) queue
  = sortByFinishQueue drinks queue /\
  length (sortByFinishQueue drinks queue) = length drinks /\
  sortByFinishQueue [] queue = [] /\
  StronglySorted (fun a b => baseFinishSec a <= baseFinishSec b)
    (sortByFinishQueue drinks []).
Proof.
  assert (Hid : forall l, StronglySorted (key_le queue) l ->
                          sortByFinishQueue l queue = l).
  { intros l. apply (sort_of_sorted _ _ (QueueBuilder.finishCompare_le queue)). }
  split; [apply Hid|]. split; [|split; [|split]].
  - apply Hid.
    apply (QueueBuilder.sort_sorted _ _ (QueueBuilder.finishCompare_le queue)
             (QueueBuilder.key_le_total queue) (QueueBuilder.key_le_trans queue)).
  - symmetry. apply Permutation_length, QueueBuilder.sort_perm.
  - reflexivity.
  - pose proof (QueueBuilder.sort_sorted _ _ (QueueBuilder.finishCompare_le [])
             (QueueBuilder.key_le_total []) (QueueBuilder.key_le_trans [])
             drinks) as Hs.
    fold (sortByFinishQueue drinks []) in Hs.
    induction Hs as [|x l Hs IH Hall]; constructor; [assumption|].
    eapply Forall_impl; [|exact Hall].
    intros y [Hlt | [_ Hle]]; [|exact Hle].
    rewrite !priority_no_queue in Hlt. lia.
Qed.

Lemma sortByFinishQueue_fixpoint_witness :
  let beer := mkDrink "6" "Beer" NON_CHILLED 5 6 None None in
  let martini := mkDrink "1" "Martini" STRAIGHT_UP 12 (-4) None None in
  StronglySorted (key_le recommendedOrder) [beer; martini] /\
  sortByFinishQueue [beer; martini] recommendedOrder = [beer; martini].
Proof.
  cbv zeta.
  set (beer := mkDrink "6" "Beer" NON_CHILLED 5 6 None None).
  set (martini := mkDrink "1" "Martini" STRAIGHT_UP 12 (-4) None None).
  assert (Hs : StronglySorted (key_le recommendedOrder) [beer; martini]).
  { constructor.
    - constructor; [constructor | constructor].
    - constructor; [|constructor]. left. cbn. lia. }
  destruct (sortByFinishQueue_fixpoint [beer; martini] recommendedOrder) as (Hid & _).
  split; [exact Hs | exact (Hid Hs)].
Defined.

End Suggestion.
